(** * The C++ tokenizer of [src/lexical.cpp], embedded in Rocq

    The scanner is a class with a mutable cursor ([pos], [line], [column])
    over an owned source buffer.  It is embedded as a state-and-error monad
    over a record of the four data members:

    - [source[i]] is a partial read ([nth_error]); a read outside the buffer
      is the error [OutOfBounds], so that a result [Ok] also says that no
      such read happened;
    - every [while] of the source is a [Fixpoint] on a fuel counter that
      returns [OutOfFuel] when the counter runs out; the member functions
      supply the counter from the length of the buffer, and the theorems
      show that [OutOfFuel] is never returned;
    - [char] is [ascii] (eight bits), [std::string] is [list ascii],
      [size_t pos] is [nat];
    - [int line] and [int column] are 32-bit integers: a [Z] that every
      [++] of the source brings back into the range of [int] with
      [int_wrap].  An overflow of [int] is undefined in C++; the model
      takes the two's complement wrap-around of the compiled code.  For
      a buffer of fewer than [2^31 - 1] characters no [++] overflows
      ([int_position_small]). *)

From Stdlib Require Import Ascii String List ZArith Lia Bool Arith Sorted.
From Stdlib Require Decimal DecimalString DecimalZ.
Import ListNotations.

Set Implicit Arguments.

(** ** Characters *)

Definition NUL : ascii := "000"%char.
Definition NL : ascii := "010"%char.
Definition DQUOTE : ascii := "034"%char.
Definition BACKSLASH : ascii := "092"%char.

(** [s "abc"] is the [std::string] with these characters. *)
Definition s (x : string) : list ascii := list_ascii_of_string x.

Definition list_ascii_eqb (a b : list ascii) : bool :=
  if list_eq_dec ascii_dec a b then true else false.

(** The [<cctype>] predicates in the "C" locale.  Characters outside
    7-bit ASCII satisfy none of them. *)
Definition isdigit (c : ascii) : bool :=
  (48 <=? nat_of_ascii c) && (nat_of_ascii c <=? 57).
Definition isupper (c : ascii) : bool :=
  (65 <=? nat_of_ascii c) && (nat_of_ascii c <=? 90).
Definition islower (c : ascii) : bool :=
  (97 <=? nat_of_ascii c) && (nat_of_ascii c <=? 122).
Definition isalpha (c : ascii) : bool := isupper c || islower c.
Definition isalnum (c : ascii) : bool := isalpha c || isdigit c.
Definition isspace (c : ascii) : bool :=
  (nat_of_ascii c =? 32) ||
  ((9 <=? nat_of_ascii c) && (nat_of_ascii c <=? 13)).

(** ** Machine integers *)

(** A result of [int] arithmetic, brought back into [-2^31, 2^31). *)
Definition int_wrap (z : Z) : Z :=
  ((z + 2147483648) mod 4294967296 - 2147483648)%Z.

(** ** Tokens *)

Inductive TokenType : Type :=
| KEYWORD
| IDENTIFIER
| NUMBER
| OPERATOR
| PUNCTUATION
| STRING_LITERAL
| END_OF_FILE
| UNKNOWN.

(** [line] and [column] are [int]s: the values the scanner holds when it
    builds the token, which [advance] keeps in the range of [int]. *)
Module Token.
Record t : Type := Token {
  type : TokenType;
  value : list ascii;
  line : Z;
  column : Z
}.
End Token.

(** ** Results of a scan *)

Inductive result (A : Type) : Type :=
| Ok (a : A)
| OutOfBounds
| OutOfFuel.

Arguments OutOfBounds {A}.
Arguments OutOfFuel {A}.

(** ** The scanner *)

Module Tokenizer.

(** [line] and [column] are [int]s: the constructor sets both to 1 and
    [advance], the only function that assigns them, wraps each [++] into
    the range of [int]. *)
Record t : Type := mk {
  source : list ascii;
  pos : nat;
  line : Z;
  column : Z
}.

Definition M (A : Type) : Type := t -> result (A * t).

Definition ret {A : Type} (a : A) : M A := fun st => Ok (a, st).

Definition bind {A B : Type} (m : M A) (k : A -> M B) : M B :=
  fun st =>
    match m st with
    | Ok (a, st') => k a st'
    | OutOfBounds => OutOfBounds
    | OutOfFuel => OutOfFuel
    end.

Definition gets {A : Type} (f : t -> A) : M A := fun st => Ok (f st, st).

Definition out_of_fuel {A : Type} : M A := fun _ => OutOfFuel.

Declare Scope tok_scope.
Delimit Scope tok_scope with tok.
Notation "x <- m ;; k" := (bind m (fun x => k))
  (at level 61, m at next level, right associativity) : tok_scope.
Notation "m ;;; k" := (bind m (fun _ => k))
  (at level 61, right associativity) : tok_scope.
(** The short-circuit [&&] and [||] of C++ on conditions that read the
    cursor. *)
Notation "a &&& b" := (bind a (fun x => if x then b else ret false))
  (at level 40, left associativity) : tok_scope.
Notation "a ||| b" := (bind a (fun x => if x then ret true else b))
  (at level 50, left associativity) : tok_scope.
Local Open Scope tok_scope.

Definition keywords : list (list ascii) :=
  map s
    [ "auto"; "break"; "case"; "char"; "const"; "continue"; "default";
      "do"; "double"; "else"; "enum"; "extern"; "float"; "for"; "goto";
      "if"; "int"; "long"; "register"; "return"; "short"; "signed";
      "sizeof"; "static"; "struct"; "switch"; "typedef"; "union";
      "unsigned"; "void"; "volatile"; "while"; "class"; "namespace";
      "public"; "private"; "protected"; "virtual"; "bool"; "true"; "false"
    ]%string.

(** [keywords.count(value)], as the truth value the source uses it for. *)
Definition keywords_count (value : list ascii) : bool :=
  existsb (list_ascii_eqb value) keywords.

(** [source[i]] *)
Definition at_ (i : nat) : M ascii :=
  fun st =>
    match nth_error (source st) i with
    | Some c => Ok (c, st)
    | None => OutOfBounds
    end.

Definition peek (offset : nat) : M ascii :=
  fun st =>
    if length (source st) <=? pos st + offset then Ok (NUL, st)
    else at_ (pos st + offset) st.

Definition advance : M ascii :=
  fun st =>
    if length (source st) <=? pos st then Ok (NUL, st)
    else
      match at_ (pos st) st with
      | Ok (c, _) =>
          if (c =? NL)%char
          then Ok (c, mk (source st) (S (pos st)) (int_wrap (line st + 1)) 1)
          else Ok (c, mk (source st) (S (pos st)) (line st)
                        (int_wrap (column st + 1)))
      | OutOfBounds => OutOfBounds
      | OutOfFuel => OutOfFuel
      end.

(** [peek(offset) == ch] and [peek(offset) != ch] *)
Definition peek_is (offset : nat) (ch : ascii) : M bool :=
  c <- peek offset ;; ret (c =? ch)%char.
Definition peek_isnt (offset : nat) (ch : ascii) : M bool :=
  c <- peek offset ;; ret (negb (c =? ch)%char).

Definition in_bounds : M bool :=
  gets (fun st => pos st <? length (source st)).

(** The fuel every loop of a scan of [st] is given. *)
Definition fuel_of : M nat := gets (fun st => S (length (source st))).

Fixpoint skipWhitespace_loop (fuel : nat) : M unit :=
  match fuel with
  | O => out_of_fuel
  | S fuel' =>
      b <- in_bounds &&& (c <- peek 0 ;; ret (isspace c)) ;;
      if b then advance ;;; skipWhitespace_loop fuel' else ret tt
  end.

Definition skipWhitespace : M unit :=
  fuel <- fuel_of ;; skipWhitespace_loop fuel.

Fixpoint skipLineComment_loop (fuel : nat) : M unit :=
  match fuel with
  | O => out_of_fuel
  | S fuel' =>
      b <- peek_isnt 0 NL &&& peek_isnt 0 NUL ;;
      if b then advance ;;; skipLineComment_loop fuel' else ret tt
  end.

Fixpoint skipBlockComment_loop (fuel : nat) : M unit :=
  match fuel with
  | O => out_of_fuel
  | S fuel' =>
      closing <- peek_is 0 "*" &&& peek_is 1 "/" ;;
      b <- (if closing then ret false else peek_isnt 0 NUL) ;;
      if b then advance ;;; skipBlockComment_loop fuel' else ret tt
  end.

Definition skipComments : M unit :=
  fuel <- fuel_of ;;
  line_comment <- peek_is 0 "/" &&& peek_is 1 "/" ;;
  if line_comment then skipLineComment_loop fuel
  else
    block_comment <- peek_is 0 "/" &&& peek_is 1 "*" ;;
    if block_comment then
      advance ;;;
      advance ;;;
      skipBlockComment_loop fuel ;;;
      more <- peek_isnt 0 NUL ;;
      if more then advance ;;; advance ;;; ret tt else ret tt
    else ret tt.

Fixpoint readIdentifierOrKeyword_loop (fuel : nat) (value : list ascii)
  : M (list ascii) :=
  match fuel with
  | O => out_of_fuel
  | S fuel' =>
      b <- (c <- peek 0 ;; ret (isalnum c)) ||| peek_is 0 "_" ;;
      if b then
        c <- advance ;; readIdentifierOrKeyword_loop fuel' (value ++ [c])
      else ret value
  end.

Definition readIdentifierOrKeyword : M Token.t :=
  fuel <- fuel_of ;;
  startLine <- gets line ;;
  startCol <- gets column ;;
  value <- readIdentifierOrKeyword_loop fuel [] ;;
  let type := if keywords_count value then KEYWORD else IDENTIFIER in
  ret (Token.Token type value startLine startCol).

Fixpoint readNumber_loop (fuel : nat) (value : list ascii)
  : M (list ascii) :=
  match fuel with
  | O => out_of_fuel
  | S fuel' =>
      b <- (c <- peek 0 ;; ret (isdigit c)) ||| peek_is 0 "." ;;
      if b then c <- advance ;; readNumber_loop fuel' (value ++ [c])
      else ret value
  end.

Definition readNumber : M Token.t :=
  fuel <- fuel_of ;;
  startLine <- gets line ;;
  startCol <- gets column ;;
  value <- readNumber_loop fuel [] ;;
  ret (Token.Token NUMBER value startLine startCol).

Fixpoint readString_loop (fuel : nat) (value : list ascii)
  : M (list ascii) :=
  match fuel with
  | O => out_of_fuel
  | S fuel' =>
      b <- peek_isnt 0 DQUOTE &&& peek_isnt 0 NUL ;;
      if b then
        escape <- peek_is 0 BACKSLASH ;;
        if escape then
          advance ;;;
          more <- peek_isnt 0 NUL ;;
          if more then
            c <- advance ;; readString_loop fuel' (value ++ [c])
          else readString_loop fuel' value
        else
          c <- advance ;; readString_loop fuel' (value ++ [c])
      else ret value
  end.

Definition readString : M Token.t :=
  fuel <- fuel_of ;;
  startLine <- gets line ;;
  startCol <- gets column ;;
  advance ;;;
  value <- readString_loop fuel [] ;;
  closing <- peek_is 0 DQUOTE ;;
  (if closing then advance ;;; ret tt else ret tt) ;;;
  ret (Token.Token STRING_LITERAL value startLine startCol).

(** The condition of the [if] of [readOperator]. *)
Definition is_two_char_operator (c next : ascii) : bool :=
  ((c =? "=")%char && (next =? "=")%char) ||
  ((c =? "!")%char && (next =? "=")%char) ||
  ((c =? "<")%char && (next =? "=")%char) ||
  ((c =? ">")%char && (next =? "=")%char) ||
  ((c =? "+")%char && (next =? "+")%char) ||
  ((c =? "-")%char && (next =? "-")%char) ||
  ((c =? "&")%char && (next =? "&")%char) ||
  ((c =? "|")%char && (next =? "|")%char) ||
  ((c =? "-")%char && (next =? ">")%char) ||
  ((c =? ":")%char && (next =? ":")%char).

Definition readOperator : M Token.t :=
  startLine <- gets line ;;
  startCol <- gets column ;;
  c <- peek 0 ;;
  next <- peek 1 ;;
  value <-
    (if is_two_char_operator c next then
       c1 <- advance ;; c2 <- advance ;; ret ([] ++ [c1] ++ [c2])
     else
       c1 <- advance ;; ret ([] ++ [c1])) ;;
  ret (Token.Token OPERATOR value startLine startCol).

(** The conditions of the dispatch in [tokenize]. *)
Definition is_identifier_start (c : ascii) : bool :=
  isalpha c || (c =? "_")%char.

Definition is_punctuation (c : ascii) : bool :=
  (c =? ";")%char || (c =? ",")%char || (c =? "(")%char || (c =? ")")%char ||
  (c =? "{")%char || (c =? "}")%char || (c =? "[")%char || (c =? "]")%char.

Definition is_operator_start (c : ascii) : bool :=
  (c =? "+")%char || (c =? "-")%char || (c =? "*")%char || (c =? "/")%char ||
  (c =? "=")%char || (c =? "<")%char || (c =? ">")%char || (c =? "!")%char ||
  (c =? "&")%char || (c =? "|")%char || (c =? ":")%char.

(** The [if]/[else if] chain of [tokenize]: the token pushed by one round
    of its loop, once whitespace and a comment were skipped and the cursor
    is inside the buffer. *)
Definition dispatch : M Token.t :=
  c <- peek 0 ;;
  startLine <- gets line ;;
  startCol <- gets column ;;
  if is_identifier_start c then readIdentifierOrKeyword
  else if isdigit c then readNumber
  else if (c =? DQUOTE)%char then readString
  else if is_punctuation c then
    c1 <- advance ;; ret (Token.Token PUNCTUATION [c1] startLine startCol)
  else if is_operator_start c then readOperator
  else
    c1 <- advance ;; ret (Token.Token UNKNOWN [c1] startLine startCol).

Fixpoint tokenize_loop (fuel : nat) (tokens : list Token.t)
  : M (list Token.t) :=
  match fuel with
  | O => out_of_fuel
  | S fuel' =>
      b <- in_bounds ;;
      if b then
        skipWhitespace ;;;
        skipComments ;;;
        inside <- in_bounds ;;
        if inside then
          tok <- dispatch ;; tokenize_loop fuel' (tokens ++ [tok])
        else ret tokens
      else ret tokens
  end.

Definition tokenize : M (list Token.t) :=
  fuel <- fuel_of ;;
  tokens <- tokenize_loop fuel [] ;;
  l <- gets line ;;
  c <- gets column ;;
  ret (tokens ++ [Token.Token END_OF_FILE [] l c]).

(** The constructor. *)
Definition Tokenizer (src : list ascii) : t := mk src 0 1 1.

End Tokenizer.

(** [Tokenizer(src).tokenize()] *)
Definition tokenize_source (src : list ascii) : result (list Token.t) :=
  match Tokenizer.tokenize (Tokenizer.Tokenizer src) with
  | Ok (tokens, _) => Ok tokens
  | OutOfBounds => OutOfBounds
  | OutOfFuel => OutOfFuel
  end.

(** ** Printing

    [std::cout] is the text written to it so far; [operator<<] on an [int]
    writes it in decimal, with a minus sign when it is negative. *)

(** The [default] of the [switch] answers for values outside the
    enumeration, which [TokenType] does not have. *)
Definition tokenTypeToString (type : TokenType) : list ascii :=
  match type with
  | KEYWORD => s "KEYWORD"
  | IDENTIFIER => s "IDENTIFIER"
  | NUMBER => s "NUMBER"
  | OPERATOR => s "OPERATOR"
  | PUNCTUATION => s "PUNCTUATION"
  | STRING_LITERAL => s "STRING"
  | END_OF_FILE => s "EOF"
  | UNKNOWN => s "UNKNOWN"
  end.

Definition int_text (z : Z) : list ascii :=
  list_ascii_of_string (DecimalString.NilEmpty.string_of_int (Z.to_int z)).

(** What the body of the loop of [printTokens] writes for [token]. *)
Definition print_token (token : Token.t) : list ascii :=
  s "[" ++ tokenTypeToString (Token.type token) ++ s "] " ++
  s "'" ++ Token.value token ++ s "' " ++
  s "(line " ++ int_text (Token.line token) ++
  s ", col " ++ int_text (Token.column token) ++ s ")" ++ [NL].

Definition printTokens (tokens : list Token.t) (cout : list ascii)
  : list ascii :=
  fold_left (fun out token => out ++ print_token token) tokens cout.

(** ** Reading the buffer as a list

    What is left of the buffer at the cursor, the effect of one successful
    [advance] on the state, and positions computed from the text alone. *)

Import Tokenizer.

Definition rest (st : Tokenizer.t) : list ascii := skipn (pos st) (source st).

Definition adv (st : Tokenizer.t) : Tokenizer.t :=
  match rest st with
  | [] => st
  | c :: _ =>
      if (c =? NL)%char
      then mk (source st) (S (pos st)) (int_wrap (line st + 1)) 1
      else mk (source st) (S (pos st)) (line st) (int_wrap (column st + 1))
  end.

Fixpoint jump (n : nat) (st : Tokenizer.t) : Tokenizer.t :=
  match n with
  | O => st
  | S n' => jump n' (adv st)
  end.

(** The rule of the cursor: a newline starts the next line at column 1,
    any other character moves one column to the right. *)
Definition step_position (p : Z * Z) (c : ascii) : Z * Z :=
  if (c =? NL)%char then (fst p + 1, 1)%Z else (fst p, snd p + 1)%Z.

(** The position of the character at [offset] of [src]: the rule applied
    to the characters before it, from line 1, column 1. *)
Definition position_of (src : list ascii) (offset : nat) : Z * Z :=
  fold_left step_position (firstn offset src) (1, 1)%Z.

(** The same rule and the same positions in the arithmetic of [int], as
    [advance] computes them. *)
Definition int_step (p : Z * Z) (c : ascii) : Z * Z :=
  if (c =? NL)%char then (int_wrap (fst p + 1), 1%Z)
  else (fst p, int_wrap (snd p + 1)).

Definition int_position_of (src : list ascii) (offset : nat) : Z * Z :=
  fold_left int_step (firstn offset src) (1, 1)%Z.

Definition cursor_ok (st : Tokenizer.t) : Prop :=
  pos st <= length (source st) /\
  (line st, column st) = int_position_of (source st) (pos st).

(** The number of rounds of a loop [while (cond) advance();] whose
    condition reads the characters at the cursor. *)
Fixpoint scan_len (cond : list ascii -> bool) (l : list ascii) : nat :=
  match l with
  | [] => 0
  | _ :: r => if cond l then S (scan_len cond r) else 0
  end.

Definition at_space (l : list ascii) : bool := isspace (hd NUL l).
Definition in_line_comment (l : list ascii) : bool :=
  negb (hd NUL l =? NL)%char && negb (hd NUL l =? NUL)%char.
Definition in_block_comment (l : list ascii) : bool :=
  negb ((hd NUL l =? "*")%char && (nth 1 l NUL =? "/")%char) &&
  negb (hd NUL l =? NUL)%char.
Definition at_identifier_char (l : list ascii) : bool :=
  isalnum (hd NUL l) || (hd NUL l =? "_")%char.
Definition at_number_char (l : list ascii) : bool :=
  isdigit (hd NUL l) || (hd NUL l =? ".")%char.

(** The body of a string literal as section 4.5 of the specification
    describes it, on the characters after the opening quote: the text of
    the token and the number of characters consumed, the closing quote not
    counted.  The scan ends at a double quote or where the scanner sees the
    end of input, which is the end of the buffer or a NUL character (what
    [peek] answers at the end of the buffer); a backslash is dropped and
    the character after it, if there is one, is taken as it is. *)
Fixpoint string_body_spec (l : list ascii) : list ascii * nat :=
  match l with
  | [] => ([], 0)
  | c :: r =>
      if (c =? DQUOTE)%char || (c =? NUL)%char then ([], 0)
      else if (c =? BACKSLASH)%char then
        match r with
        | [] => ([], 1)
        | d :: r' =>
            if (d =? NUL)%char then ([], 1)
            else (d :: fst (string_body_spec r'), S (S (snd (string_body_spec r'))))
        end
      else (c :: fst (string_body_spec r), S (snd (string_body_spec r)))
  end.

(** The text of the operator token read at [c], [next] being the
    character after it. *)
Definition operator_text (c next : ascii) : list ascii :=
  if is_two_char_operator c next then [c; next] else [c].

(** The number of characters [readString] consumes from [l], which starts
    at the opening quote, and the text of its token. *)
Definition string_len (l : list ascii) : nat :=
  let n := snd (string_body_spec (tl l)) in
  if (nth n (tl l) NUL =? DQUOTE)%char then S (S n) else S n.

Definition string_text (l : list ascii) : list ascii :=
  fst (string_body_spec (tl l)).

(** The lexeme of [tok] starts at offset [p] of [src]: the text of the
    token is what the buffer holds from [p] on; for a string literal, whose
    text is stripped of its quotes and backslashes, the character at [p] is
    the opening quote. *)
Definition lexeme_starts_at (src : list ascii) (p : nat) (tok : Token.t)
  : Prop :=
  match Token.type tok with
  | STRING_LITERAL => nth_error src p = Some DQUOTE
  | _ =>
      Token.value tok <> [] /\
      firstn (length (Token.value tok)) (skipn p src) = Token.value tok
  end.

(** [tok] is a token of the scan of [src] whose lexeme starts at offset
    [p], recorded at the position of that character. *)
Definition token_at (src : list ascii) (p : nat) (tok : Token.t) : Prop :=
  p < length src /\
  (Token.line tok, Token.column tok) = int_position_of src p /\
  Token.type tok <> END_OF_FILE /\
  lexeme_starts_at src p tok.

(** The characters an identifier is made of. *)
Definition is_identifier_char (c : ascii) : bool :=
  isalnum c || (c =? "_")%char.

(** The table of two-character operators of section 4.6. *)
Definition two_char_operators : list (list ascii) :=
  map s ["=="; "!="; "<="; ">="; "++"; "--"; "&&"; "||"; "->"; "::"]%string.

(** A character of a string body that stands for itself. *)
Definition is_plain (c : ascii) : bool :=
  negb ((c =? DQUOTE)%char || (c =? NUL)%char || (c =? BACKSLASH)%char).

(** A member function keeps the cursor in step with the text: from a state
    whose [line] and [column] are the position of the character at [pos],
    it returns, leaves the buffer as it is, moves [pos] forward only, and
    ends in such a state again. *)
Definition preserves_cursor {A : Type} (m : M A) : Prop :=
  forall st, cursor_ok st ->
    exists a st',
      m st = Ok (a, st') /\ source st' = source st /\
      pos st <= pos st' /\ cursor_ok st'.

(** The number of characters [skipComments] consumes from [l]: a line
    comment up to the newline, a block comment with its closing star and
    slash when the scan meets them, nothing when [l] starts with neither
    opening. *)
Definition comment_len (l : list ascii) : nat :=
  if (hd NUL l =? "/")%char && (nth 1 l NUL =? "/")%char
  then scan_len in_line_comment l
  else if (hd NUL l =? "/")%char && (nth 1 l NUL =? "*")%char
  then
    let n := scan_len in_block_comment (skipn 2 l) in
    if (nth n (skipn 2 l) NUL =? NUL)%char then 2 + n else 2 + n + 2
  else 0.

(** A star directly followed by a slash occurs in [l]. *)
Fixpoint has_close (l : list ascii) : bool :=
  match l with
  | a :: r =>
      ((a =? "*")%char && (hd NUL r =? "/")%char) || has_close r
  | [] => false
  end.

(** The characters a number is made of. *)
Definition is_number_char (c : ascii) : bool :=
  isdigit c || (c =? ".")%char.

(** What one round of the loop of [tokenize] skips in front of a token:
    whitespace, and then nothing or one comment that [skipComments]
    consumes whole. *)
Definition is_gap (g : list ascii) : Prop :=
  exists ws cm,
    g = ws ++ cm /\
    Forall (fun c => isspace c = true) ws /\
    comment_len cm = length cm.

(** [tok] is the token of the lexeme [l]: the kind follows from the first
    character of [l], and the text is [l] itself, or, for a string
    literal, what [l] holds between its quotes with the backslashes
    dropped. *)
Definition token_of_lexeme (l : list ascii) (tok : Token.t) : Prop :=
  l <> [] /\
  match Token.type tok with
  | KEYWORD =>
      Token.value tok = l /\ is_identifier_start (hd NUL l) = true /\
      Forall (fun a => is_identifier_char a = true) l /\ In l keywords
  | IDENTIFIER =>
      Token.value tok = l /\ is_identifier_start (hd NUL l) = true /\
      Forall (fun a => is_identifier_char a = true) l /\ ~ In l keywords
  | NUMBER =>
      Token.value tok = l /\ isdigit (hd NUL l) = true /\
      Forall (fun a => is_number_char a = true) l
  | STRING_LITERAL =>
      hd NUL l = DQUOTE /\ string_len l = length l /\
      Token.value tok = string_text l
  | PUNCTUATION =>
      Token.value tok = l /\ l = [hd NUL l] /\
      is_punctuation (hd NUL l) = true
  | OPERATOR =>
      Token.value tok = l /\ is_operator_start (hd NUL l) = true /\
      (l = [hd NUL l] \/ In l two_char_operators)
  | UNKNOWN =>
      Token.value tok = l /\ l = [hd NUL l] /\
      is_identifier_start (hd NUL l) = false /\
      isdigit (hd NUL l) = false /\
      hd NUL l <> DQUOTE /\
      is_punctuation (hd NUL l) = false /\
      is_operator_start (hd NUL l) = false
  | END_OF_FILE => False
  end.


(** The order of reading on positions: an earlier line, or the same line
    and an earlier column. *)
Definition position_lt (p q : Z * Z) : Prop :=
  (fst p < fst q)%Z \/ (fst p = fst q /\ snd p < snd q)%Z.

Definition token_position (tok : Token.t) : Z * Z :=
  (Token.line tok, Token.column tok).

(** The characters of a decimal numeral. *)
Definition is_decimal_char (c : ascii) : bool :=
  isdigit c || (c =? "-")%char.

Arguments at_space : simpl never.
Arguments in_line_comment : simpl never.
Arguments in_block_comment : simpl never.
Arguments at_identifier_char : simpl never.
Arguments at_number_char : simpl never.

(** ** The primitives *)

Lemma nth_error_rest (st : Tokenizer.t) (k : nat) :
  nth_error (source st) (pos st + k) = nth_error (rest st) k.
Proof. unfold rest. now rewrite nth_error_skipn. Qed.

Lemma length_rest (st : Tokenizer.t) :
  length (rest st) = length (source st) - pos st.
Proof. unfold rest. now rewrite length_skipn. Qed.

Lemma peek_run (k : nat) (st : Tokenizer.t) :
  peek k st = Ok (nth k (rest st) NUL, st).
Proof.
  unfold peek, at_.
  destruct (Nat.leb_spec (length (source st)) (pos st + k)) as [Hle | Hlt].
  - rewrite nth_overflow; [reflexivity | rewrite length_rest; lia].
  - rewrite nth_error_rest.
    destruct (nth_error (rest st) k) as [c |] eqn:E.
    + now rewrite (nth_error_nth _ _ NUL E).
    + apply nth_error_None in E. rewrite length_rest in E. lia.
Qed.

Lemma advance_run (st : Tokenizer.t) :
  advance st = Ok (hd NUL (rest st), adv st).
Proof.
  unfold advance, at_, adv.
  destruct (Nat.leb_spec (length (source st)) (pos st)) as [Hle | Hlt].
  - assert (E : rest st = []) by (apply skipn_all2; exact Hle).
    now rewrite E.
  - rewrite <- (Nat.add_0_r (pos st)) at 1. rewrite nth_error_rest.
    destruct (rest st) as [| c r] eqn:E.
    + apply (f_equal (@length ascii)) in E. rewrite length_rest in E.
      simpl in E. lia.
    + simpl. now destruct (c =? NL)%char.
Qed.

Lemma in_bounds_run (st : Tokenizer.t) :
  in_bounds st = Ok (match rest st with [] => false | _ :: _ => true end, st).
Proof.
  unfold in_bounds, gets. f_equal. f_equal.
  destruct (Nat.ltb_spec (pos st) (length (source st))) as [Hlt | Hle].
  - destruct (rest st) eqn:E; [| reflexivity].
    apply (f_equal (@length ascii)) in E. rewrite length_rest in E.
    simpl in E. lia.
  - unfold rest. now rewrite skipn_all2.
Qed.

Lemma peek_is_run (k : nat) (ch : ascii) (st : Tokenizer.t) :
  peek_is k ch st = Ok ((nth k (rest st) NUL =? ch)%char, st).
Proof. unfold peek_is, bind. now rewrite peek_run. Qed.

Lemma peek_isnt_run (k : nat) (ch : ascii) (st : Tokenizer.t) :
  peek_isnt k ch st = Ok (negb (nth k (rest st) NUL =? ch)%char, st).
Proof. unfold peek_isnt, bind. now rewrite peek_run. Qed.

Lemma nth_0_hd (l : list ascii) : nth 0 l NUL = hd NUL l.
Proof. now destruct l. Qed.

(** ** Moving the cursor *)

Lemma source_adv (st : Tokenizer.t) : source (adv st) = source st.
Proof.
  unfold adv. destruct (rest st) as [| c r]; [reflexivity |].
  now destruct (c =? NL)%char.
Qed.

Lemma rest_cons_pos (st : Tokenizer.t) (c : ascii) (r : list ascii) :
  rest st = c :: r ->
  pos st < length (source st) /\ nth_error (source st) (pos st) = Some c /\
  skipn (S (pos st)) (source st) = r.
Proof.
  intros E. split; [| split].
  - apply (f_equal (@length ascii)) in E. rewrite length_rest in E.
    simpl in E. lia.
  - rewrite <- (Nat.add_0_r (pos st)), nth_error_rest, E. reflexivity.
  - change (S (pos st)) with (1 + pos st). rewrite <- skipn_skipn.
    fold (rest st). now rewrite E.
Qed.

Lemma pos_adv (st : Tokenizer.t) (c : ascii) (r : list ascii) :
  rest st = c :: r -> pos (adv st) = S (pos st).
Proof. intros E. unfold adv. rewrite E. now destruct (c =? NL)%char. Qed.

Lemma rest_adv (st : Tokenizer.t) : rest (adv st) = tl (rest st).
Proof.
  destruct (rest st) as [| c r] eqn:E.
  - unfold adv. rewrite E. exact E.
  - unfold rest at 1. rewrite source_adv, (pos_adv _ E).
    now destruct (rest_cons_pos _ E) as (_ & _ & ->).
Qed.

Lemma source_jump (n : nat) (st : Tokenizer.t) :
  source (jump n st) = source st.
Proof.
  revert st. induction n as [| n IH]; intros st; simpl; [reflexivity |].
  now rewrite IH, source_adv.
Qed.

Lemma rest_jump (n : nat) (st : Tokenizer.t) :
  rest (jump n st) = skipn n (rest st).
Proof.
  revert st. induction n as [| n IH]; intros st; simpl; [reflexivity |].
  rewrite IH, rest_adv. now destruct (rest st); [rewrite skipn_nil |].
Qed.

Lemma pos_jump (n : nat) (st : Tokenizer.t) :
  n <= length (rest st) -> pos (jump n st) = pos st + n.
Proof.
  revert st. induction n as [| n IH]; intros st Hn; simpl; [lia |].
  destruct (rest st) as [| c r] eqn:E; [simpl in Hn; lia |].
  rewrite IH, (pos_adv _ E); [lia |].
  rewrite rest_adv, E. simpl in *. lia.
Qed.

Lemma jump_add (n m : nat) (st : Tokenizer.t) :
  jump m (jump n st) = jump (n + m) st.
Proof.
  revert st. induction n as [| n IH]; intros st; simpl; [reflexivity |].
  apply IH.
Qed.

Lemma line_column_adv (st : Tokenizer.t) (c : ascii) (r : list ascii) :
  rest st = c :: r ->
  (line (adv st), column (adv st)) = int_step (line st, column st) c.
Proof.
  intros E. unfold adv, int_step. rewrite E.
  now destruct (c =? NL)%char.
Qed.

Lemma position_of_S (src : list ascii) (p : nat) (c : ascii) :
  nth_error src p = Some c ->
  position_of src (S p) = step_position (position_of src p) c.
Proof.
  intros E. unfold position_of.
  assert (H : firstn (S p) src = firstn p src ++ [c]).
  { revert src E. induction p as [| p IH]; intros [| a src] E;
      simpl in E; try discriminate.
    - now inversion E.
    - simpl. f_equal. now apply IH. }
  rewrite H, fold_left_app. reflexivity.
Qed.

Lemma int_position_of_S (src : list ascii) (p : nat) (c : ascii) :
  nth_error src p = Some c ->
  int_position_of src (S p) = int_step (int_position_of src p) c.
Proof.
  intros E. unfold int_position_of.
  assert (H : firstn (S p) src = firstn p src ++ [c]).
  { revert src E. induction p as [| p IH]; intros [| a src] E;
      simpl in E; try discriminate.
    - now inversion E.
    - simpl. f_equal. now apply IH. }
  rewrite H, fold_left_app. reflexivity.
Qed.

Lemma cursor_ok_adv (st : Tokenizer.t) : cursor_ok st -> cursor_ok (adv st).
Proof.
  intros [Hle Hpos]. destruct (rest st) as [| c r] eqn:E.
  - unfold adv. rewrite E. now split.
  - destruct (rest_cons_pos _ E) as (Hlt & Hc & _). split.
    + rewrite source_adv, (pos_adv _ E). lia.
    + rewrite (line_column_adv _ E), source_adv, (pos_adv _ E), Hpos.
      symmetry. now apply int_position_of_S.
Qed.

Lemma cursor_ok_jump (n : nat) (st : Tokenizer.t) :
  cursor_ok st -> cursor_ok (jump n st).
Proof.
  revert st. induction n as [| n IH]; intros st H; simpl; [exact H |].
  apply IH, cursor_ok_adv, H.
Qed.

Lemma scan_len_le (cond : list ascii -> bool) (l : list ascii) :
  scan_len cond l <= length l.
Proof.
  induction l as [| c r IH]; simpl; [lia |].
  destruct (cond (c :: r)); lia.
Qed.

(** ** The loops that only move the cursor *)

Ltac run_step :=
  first
    [ rewrite in_bounds_run
    | rewrite peek_is_run
    | rewrite peek_isnt_run
    | rewrite peek_run
    | rewrite advance_run
    | progress cbv beta iota delta [bind ret gets fuel_of out_of_fuel] ].

Ltac run := repeat (first [ run_step | progress cbn ]).

Ltac run_with E := repeat (first [ run_step | rewrite E | progress cbn ]).

Lemma rest_adv_cons (st : Tokenizer.t) (c : ascii) (r : list ascii) :
  rest st = c :: r -> rest (adv st) = r.
Proof. intros E. now rewrite rest_adv, E. Qed.

Lemma skipWhitespace_loop_run (fuel : nat) (st : Tokenizer.t) :
  length (rest st) < fuel ->
  skipWhitespace_loop fuel st = Ok (tt, jump (scan_len at_space (rest st)) st).
Proof.
  revert st. induction fuel as [| fuel IH]; intros st Hf; [lia |].
  simpl skipWhitespace_loop. run.
  destruct (rest st) as [| c r] eqn:E; [reflexivity |].
  run. rewrite E. unfold at_space at 1. cbn [nth hd scan_len].
  destruct (isspace c); [| reflexivity].
  run. rewrite IH, (rest_adv_cons _ E); [reflexivity |].
  rewrite (rest_adv_cons _ E). simpl in Hf. lia.
Qed.

Lemma skipLineComment_loop_run (fuel : nat) (st : Tokenizer.t) :
  length (rest st) < fuel ->
  skipLineComment_loop fuel st =
  Ok (tt, jump (scan_len in_line_comment (rest st)) st).
Proof.
  revert st. induction fuel as [| fuel IH]; intros st Hf; [lia |].
  simpl skipLineComment_loop. run_step. run_step.
  destruct (rest st) as [| c r] eqn:E; [run; now rewrite E |].
  unfold in_line_comment at 1. cbn [nth hd scan_len].
  destruct (c =? NL)%char; [reflexivity |]. run. rewrite E. cbn [nth].
  destruct (c =? NUL)%char; [reflexivity |]. run.
  rewrite IH, (rest_adv_cons _ E); [reflexivity |].
  rewrite (rest_adv_cons _ E). simpl in Hf. lia.
Qed.

Lemma skipBlockComment_loop_run (fuel : nat) (st : Tokenizer.t) :
  length (rest st) < fuel ->
  skipBlockComment_loop fuel st =
  Ok (tt, jump (scan_len in_block_comment (rest st)) st).
Proof.
  revert st. induction fuel as [| fuel IH]; intros st Hf; [lia |].
  simpl skipBlockComment_loop. run_step. run_step.
  destruct (rest st) as [| c r] eqn:E; [run; now rewrite E |].
  assert (Hstep :
    skipBlockComment_loop fuel (adv st) =
    Ok (tt, jump (scan_len in_block_comment r) (adv st))).
  { rewrite IH, (rest_adv_cons _ E); [reflexivity |].
    rewrite (rest_adv_cons _ E). simpl in Hf. lia. }
  cbn [scan_len]. unfold in_block_comment at 1. cbn [hd].
  change (nth 0 (c :: r) NUL) with c.
  destruct (c =? "*")%char eqn:Es;
    destruct (nth 1 (c :: r) NUL =? "/")%char eqn:En;
    destruct (c =? NUL)%char eqn:Ez;
    run; rewrite ?E; change (nth 0 (c :: r) NUL) with c;
    rewrite ?Es, ?En, ?Ez; run; rewrite ?E; change (nth 0 (c :: r) NUL) with c;
    rewrite ?Es, ?En, ?Ez; run;
    solve [reflexivity | exact Hstep].
Qed.

(** ** The loops that collect a lexeme *)

Lemma readIdentifierOrKeyword_loop_run (fuel : nat) (value : list ascii)
  (st : Tokenizer.t) :
  length (rest st) < fuel ->
  readIdentifierOrKeyword_loop fuel value st =
  Ok (value ++ firstn (scan_len at_identifier_char (rest st)) (rest st),
      jump (scan_len at_identifier_char (rest st)) st).
Proof.
  revert value st. induction fuel as [| fuel IH]; intros value st Hf; [lia |].
  simpl readIdentifierOrKeyword_loop. run_step. run_step.
  destruct (rest st) as [| c r] eqn:E;
    [run; rewrite E; run; now rewrite app_nil_r |].
  assert (Hstep : forall v,
    readIdentifierOrKeyword_loop fuel v (adv st) =
    Ok (v ++ firstn (scan_len at_identifier_char r) r,
        jump (scan_len at_identifier_char r) (adv st))).
  { intros v. rewrite IH, (rest_adv_cons _ E); [reflexivity |].
    rewrite (rest_adv_cons _ E). simpl in Hf. lia. }
  cbn [scan_len].
  change (at_identifier_char (c :: r)) with (isalnum c || (c =? "_")%char).
  change (nth 0 (c :: r) NUL) with c.
  destruct (isalnum c) eqn:Ea; destruct (c =? "_")%char eqn:Eu;
    run; rewrite ?E; change (nth 0 (c :: r) NUL) with c; rewrite ?Eu; run;
    rewrite ?E; cbn [hd]; rewrite ?Hstep, <- ?app_assoc, ?app_nil_r;
    reflexivity.
Qed.

Lemma readNumber_loop_run (fuel : nat) (value : list ascii)
  (st : Tokenizer.t) :
  length (rest st) < fuel ->
  readNumber_loop fuel value st =
  Ok (value ++ firstn (scan_len at_number_char (rest st)) (rest st),
      jump (scan_len at_number_char (rest st)) st).
Proof.
  revert value st. induction fuel as [| fuel IH]; intros value st Hf; [lia |].
  simpl readNumber_loop. run_step. run_step.
  destruct (rest st) as [| c r] eqn:E;
    [run; rewrite E; run; now rewrite app_nil_r |].
  assert (Hstep : forall v,
    readNumber_loop fuel v (adv st) =
    Ok (v ++ firstn (scan_len at_number_char r) r,
        jump (scan_len at_number_char r) (adv st))).
  { intros v. rewrite IH, (rest_adv_cons _ E); [reflexivity |].
    rewrite (rest_adv_cons _ E). simpl in Hf. lia. }
  cbn [scan_len].
  change (at_number_char (c :: r)) with (isdigit c || (c =? ".")%char).
  change (nth 0 (c :: r) NUL) with c.
  destruct (isdigit c) eqn:Ea; destruct (c =? ".")%char eqn:Eu;
    run; rewrite ?E; change (nth 0 (c :: r) NUL) with c; rewrite ?Eu; run;
    rewrite ?E; cbn [hd]; rewrite ?Hstep, <- ?app_assoc, ?app_nil_r;
    reflexivity.
Qed.

Lemma readString_loop_run (fuel : nat) (value : list ascii)
  (st : Tokenizer.t) :
  length (rest st) < fuel ->
  readString_loop fuel value st =
  Ok (value ++ fst (string_body_spec (rest st)),
      jump (snd (string_body_spec (rest st))) st).
Proof.
  revert value st. induction fuel as [| fuel IH]; intros value st Hf; [lia |].
  simpl readString_loop. run_step. run_step.
  destruct (rest st) as [| c r] eqn:E;
    [run_with E; now rewrite app_nil_r |].
  cbn [string_body_spec]. change (nth 0 (c :: r) NUL) with c.
  destruct (c =? DQUOTE)%char eqn:Eq;
    [run; now rewrite app_nil_r |].
  run. rewrite E. change (nth 0 (c :: r) NUL) with c.
  destruct (c =? NUL)%char eqn:Ez; [run; now rewrite app_nil_r |].
  run. rewrite E. change (nth 0 (c :: r) NUL) with c.
  pose proof (rest_adv_cons _ E) as E1.
  destruct (c =? BACKSLASH)%char eqn:Eb.
  - run. rewrite E1. destruct r as [| d r'].
    + run. destruct fuel as [| fuel']; [simpl in Hf; lia |].
      simpl readString_loop. run_with E1. now rewrite app_nil_r.
    + change (nth 0 (d :: r') NUL) with d.
      destruct (d =? NUL)%char eqn:Edz.
      * run. destruct fuel as [| fuel']; [simpl in Hf; lia |].
        simpl readString_loop. run. rewrite E1.
        change (nth 0 (d :: r') NUL) with d.
        destruct (d =? DQUOTE)%char; [run; now rewrite app_nil_r |].
        run. rewrite E1. change (nth 0 (d :: r') NUL) with d. rewrite Edz.
        run. now rewrite app_nil_r.
      * run. rewrite E1. cbn [hd].
        rewrite IH, (rest_adv_cons _ E1), <- app_assoc; [reflexivity |].
        rewrite (rest_adv_cons _ E1). simpl in Hf. simpl. lia.
  - run. rewrite E. cbn [hd].
    rewrite IH, E1, <- app_assoc; [reflexivity |].
    rewrite E1. simpl in Hf. lia.
Qed.

(** ** The member functions *)

Lemma fuel_enough (st : Tokenizer.t) :
  length (rest st) < S (length (source st)).
Proof. rewrite length_rest. lia. Qed.

Lemma fuel_enough_jump (n : nat) (st : Tokenizer.t) :
  length (rest (jump n st)) < S (length (source st)).
Proof. rewrite <- (source_jump n st). apply fuel_enough. Qed.

Lemma nth_skipn (n k : nat) (l : list ascii) :
  nth k (skipn n l) NUL = nth (n + k) l NUL.
Proof.
  revert l. induction n as [| n IH]; intros l; [reflexivity |].
  destruct l as [| a l]; [now destruct k |]. simpl. apply IH.
Qed.

Lemma skipWhitespace_run (st : Tokenizer.t) :
  skipWhitespace st = Ok (tt, jump (scan_len at_space (rest st)) st).
Proof.
  unfold skipWhitespace. run_step.
  apply skipWhitespace_loop_run, fuel_enough.
Qed.

Lemma skipComments_run (st : Tokenizer.t) :
  exists n, skipComments st = Ok (tt, jump n st).
Proof.
  unfold skipComments. repeat run_step.
  destruct (nth 0 (rest st) NUL =? "/")%char eqn:E0.
  - repeat run_step.
    destruct (nth 1 (rest st) NUL =? "/")%char eqn:E1.
    + eexists. apply skipLineComment_loop_run, fuel_enough.
    + repeat run_step. rewrite E0. repeat run_step.
      destruct (nth 1 (rest st) NUL =? "*")%char eqn:E2.
      * repeat run_step.
        change (adv (adv st)) with (jump 2 st).
        rewrite skipBlockComment_loop_run by apply fuel_enough_jump.
        repeat run_step. rewrite jump_add.
        match goal with
        | |- context [negb ?b] => destruct b
        end; cbn [negb]; repeat run_step;
        repeat match goal with
        | |- context [adv (jump ?n st)] =>
            change (adv (jump n st)) with (jump 1 (jump n st));
            rewrite jump_add
        end; eexists; reflexivity.
      * exists 0. reflexivity.
  - repeat run_step. rewrite E0. exists 0. reflexivity.
Qed.

Lemma length_firstn_scan (cond : list ascii -> bool) (l : list ascii) :
  length (firstn (scan_len cond l) l) = scan_len cond l.
Proof. rewrite length_firstn. pose proof (scan_len_le cond l). lia. Qed.

Lemma readIdentifierOrKeyword_run (st : Tokenizer.t) :
  let value := firstn (scan_len at_identifier_char (rest st)) (rest st) in
  readIdentifierOrKeyword st =
  Ok (Token.Token (if keywords_count value then KEYWORD else IDENTIFIER)
        value (line st) (column st),
      jump (length value) st).
Proof.
  intros value. unfold readIdentifierOrKeyword. repeat run_step.
  rewrite readIdentifierOrKeyword_loop_run by apply fuel_enough.
  unfold value. now rewrite length_firstn_scan.
Qed.

Lemma readNumber_run (st : Tokenizer.t) :
  let value := firstn (scan_len at_number_char (rest st)) (rest st) in
  readNumber st =
  Ok (Token.Token NUMBER value (line st) (column st), jump (length value) st).
Proof.
  intros value. unfold readNumber. repeat run_step.
  rewrite readNumber_loop_run by apply fuel_enough.
  unfold value. now rewrite length_firstn_scan.
Qed.

Lemma readString_run (st : Tokenizer.t) :
  readString st =
  Ok (Token.Token STRING_LITERAL (string_text (rest st)) (line st) (column st),
      jump (string_len (rest st)) st).
Proof.
  unfold readString. repeat run_step.
  change (adv st) with (jump 1 st).
  rewrite readString_loop_run by apply fuel_enough_jump.
  repeat run_step. rewrite jump_add, !rest_jump.
  change (skipn 1 (rest st)) with (tl (rest st)).
  rewrite nth_skipn, Nat.add_0_r.
  unfold string_len, string_text.
  set (n := snd (string_body_spec (tl (rest st)))).
  assert (Hn : nth (1 + n) (rest st) NUL = nth n (tl (rest st)) NUL)
    by (destruct (rest st); [now destruct n | reflexivity]).
  rewrite Hn.
  destruct (nth n (tl (rest st)) NUL =? DQUOTE)%char; repeat run_step.
  - change (adv (jump (1 + n) st)) with (jump 1 (jump (1 + n) st)).
    rewrite jump_add. now replace (1 + n + 1) with (S (S n)) by lia.
  - reflexivity.
Qed.

Lemma readOperator_run (st : Tokenizer.t) :
  let c := hd NUL (rest st) in
  let next := nth 1 (rest st) NUL in
  readOperator st =
  Ok (Token.Token OPERATOR (operator_text c next) (line st) (column st),
      jump (length (operator_text c next)) st).
Proof.
  intros c next. unfold readOperator. repeat run_step.
  rewrite nth_0_hd. fold c next. unfold operator_text.
  destruct (is_two_char_operator c next); repeat run_step.
  - rewrite rest_adv. fold c.
    assert (E : hd NUL (tl (rest st)) = next)
      by (unfold next; now destruct (rest st) as [| a [| b l]]).
    now rewrite E.
  - reflexivity.
Qed.

(** ** One round of the loop of [tokenize] *)

Lemma is_two_char_operator_NUL (c : ascii) :
  is_two_char_operator c NUL = false.
Proof.
  unfold is_two_char_operator.
  change (NUL =? "=")%char with false. change (NUL =? "+")%char with false.
  change (NUL =? "-")%char with false. change (NUL =? "&")%char with false.
  change (NUL =? "|")%char with false. change (NUL =? ">")%char with false.
  change (NUL =? ":")%char with false.
  now rewrite !andb_false_r.
Qed.

Lemma operator_text_prefix (c : ascii) (r : list ascii) :
  let v := operator_text c (nth 1 (c :: r) NUL) in
  v <> [] /\ firstn (length v) (c :: r) = v.
Proof.
  unfold operator_text. cbn [nth].
  destruct r as [| d r']; cbn [nth].
  - rewrite is_two_char_operator_NUL. now split.
  - destruct (is_two_char_operator c d); now split.
Qed.

Lemma scan_prefix (cond : list ascii -> bool) (c : ascii) (r : list ascii) :
  cond (c :: r) = true ->
  let v := firstn (scan_len cond (c :: r)) (c :: r) in
  v <> [] /\ firstn (length v) (c :: r) = v.
Proof.
  intros Hc v. split.
  - unfold v. cbn [scan_len]. now rewrite Hc.
  - unfold v. now rewrite length_firstn_scan.
Qed.

Lemma dispatch_run (st : Tokenizer.t) (c : ascii) (r : list ascii) :
  rest st = c :: r ->
  exists tok n,
    dispatch st = Ok (tok, jump n st) /\ 1 <= n /\
    Token.line tok = line st /\ Token.column tok = column st /\
    Token.type tok <> END_OF_FILE /\
    lexeme_starts_at (source st) (pos st) tok.
Proof.
  intros E. unfold dispatch, lexeme_starts_at. repeat run_step.
  fold (rest st). rewrite E. cbn [nth].
  destruct (is_identifier_start c) eqn:Hid.
  { rewrite readIdentifierOrKeyword_run, E.
    assert (Hc : at_identifier_char (c :: r) = true).
    { unfold at_identifier_char. cbn [hd]. unfold is_identifier_start in Hid.
      unfold isalnum. destruct (isalpha c); [reflexivity |].
      cbn [orb] in *. rewrite Hid. apply orb_true_r. }
    destruct (scan_prefix at_identifier_char c r Hc) as [Hne Hpre].
    do 2 eexists. split; [reflexivity |]. cbn [Token.type Token.value
      Token.line Token.column].
    split; [| split; [reflexivity | split; [reflexivity |]]].
    - destruct (firstn _ (c :: r)); [contradiction | simpl; lia].
    - destruct (keywords_count _); (split; [discriminate | now split]). }
  destruct (isdigit c) eqn:Hdig.
  { rewrite readNumber_run, E.
    assert (Hc : at_number_char (c :: r) = true).
    { unfold at_number_char. cbn [hd]. now rewrite Hdig. }
    destruct (scan_prefix at_number_char c r Hc) as [Hne Hpre].
    do 2 eexists. split; [reflexivity |]. cbn [Token.type Token.value
      Token.line Token.column].
    split; [| split; [reflexivity | split; [reflexivity |]]].
    - destruct (firstn _ (c :: r)); [contradiction | simpl; lia].
    - split; [discriminate | now split]. }
  destruct (c =? DQUOTE)%char eqn:Hq.
  { rewrite readString_run, E. apply Ascii.eqb_eq in Hq. subst c.
    do 2 eexists. split; [reflexivity |]. cbn [Token.type Token.value
      Token.line Token.column].
    split; [| split; [reflexivity | split; [reflexivity |]]].
    - unfold string_len. destruct (_ =? DQUOTE)%char; lia.
    - split; [discriminate |]. now destruct (rest_cons_pos _ E) as (_ & ? & _). }
  destruct (is_punctuation c).
  { repeat run_step. rewrite E. cbn [hd]. exists (Token.Token PUNCTUATION [c]
      (line st) (column st)), 1.
    cbn [Token.type Token.value Token.line Token.column].
    repeat split; auto; discriminate. }
  destruct (is_operator_start c).
  { rewrite readOperator_run, E. cbn [hd].
    destruct (operator_text_prefix c r) as [Hne Hpre].
    do 2 eexists. split; [reflexivity |]. cbn [Token.type Token.value
      Token.line Token.column].
    split; [| split; [reflexivity | split; [reflexivity |]]].
    - destruct (operator_text c _); [contradiction | simpl; lia].
    - split; [discriminate | now split]. }
  repeat run_step. rewrite E. cbn [hd]. exists (Token.Token UNKNOWN [c]
    (line st) (column st)), 1.
  cbn [Token.type Token.value Token.line Token.column].
  repeat split; auto; discriminate.
Qed.

(** ** The loop of [tokenize] *)

Lemma length_rest_jump (n : nat) (st : Tokenizer.t) :
  length (rest (jump n st)) = length (rest st) - n.
Proof. now rewrite rest_jump, length_skipn. Qed.

Lemma cursor_ok_pos (st : Tokenizer.t) :
  cursor_ok st -> pos st = length (source st) - length (rest st).
Proof. intros [Hle _]. rewrite length_rest. lia. Qed.

Lemma pos_jump_mono (n : nat) (st : Tokenizer.t) :
  cursor_ok st -> pos st <= pos (jump n st).
Proof.
  intros Hok. rewrite (cursor_ok_pos Hok).
  rewrite (cursor_ok_pos (cursor_ok_jump n Hok)), source_jump.
  rewrite length_rest_jump. lia.
Qed.

Lemma tokenize_loop_run (fuel : nat) (tokens : list Token.t)
  (st : Tokenizer.t) :
  cursor_ok st -> length (rest st) < fuel ->
  exists toks offs st',
    tokenize_loop fuel tokens st = Ok (tokens ++ toks, st') /\
    source st' = source st /\ cursor_ok st' /\
    pos st' = length (source st) /\
    Forall2 (token_at (source st)) offs toks /\
    Forall (fun p => pos st <= p) offs /\
    StronglySorted lt offs.
Proof.
  revert tokens st.
  induction fuel as [| fuel IH]; intros tokens st Hok Hf; [lia |].
  assert (Hend : forall st', cursor_ok st' -> source st' = source st ->
            rest st' = [] -> pos st' = length (source st)).
  { intros st' Hok' Hsrc Hrest. rewrite (cursor_ok_pos Hok'), Hrest, Hsrc.
    simpl. lia. }
  simpl tokenize_loop. repeat run_step.
  destruct (rest st) as [| c r] eqn:E.
  { exists [], [], st. rewrite app_nil_r.
    repeat split; auto; try constructor; apply Hok. }
  rewrite skipWhitespace_run.
  set (a := scan_len at_space (rest st)).
  destruct (skipComments_run (jump a st)) as [b Hb].
  rewrite Hb, jump_add. repeat run_step.
  set (st2 := jump (a + b) st).
  assert (Hok2 : cursor_ok st2) by now apply cursor_ok_jump.
  assert (Hsrc2 : source st2 = source st) by apply source_jump.
  destruct (rest st2) as [| c2 r2] eqn:E2.
  { exists [], [], st2. rewrite app_nil_r.
    repeat split; auto; try constructor; apply Hok2. }
  destruct (dispatch_run _ E2) as (tok & n & Hd & Hn & Hl & Hc & Ht & Hlex).
  rewrite Hd. unfold st2 at 1. rewrite jump_add.
  set (st3 := jump (a + b + n) st).
  assert (Hok3 : cursor_ok st3) by now apply cursor_ok_jump.
  assert (Hsrc3 : source st3 = source st) by apply source_jump.
  assert (Hlen2 : length (rest st2) <= length (rest st))
    by (unfold st2; rewrite length_rest_jump; lia).
  assert (Hlen3 : length (rest st3) < length (rest st2)).
  { unfold st3, st2. rewrite !length_rest_jump.
    fold st2. pose proof (length_rest_jump (a + b) st) as H. fold st2 in H.
    rewrite E2 in H. simpl in H. lia. }
  assert (Hpos2 : pos st <= pos st2) by now apply pos_jump_mono.
  assert (Hpos23 : pos st2 < pos st3).
  { rewrite (cursor_ok_pos Hok2), (cursor_ok_pos Hok3), Hsrc2, Hsrc3.
    pose proof (length_rest st2) as H. rewrite Hsrc2 in H.
    rewrite E2 in *. simpl in *. lia. }
  destruct (IH (tokens ++ [tok]) st3 Hok3) as
    (toks & offs & st' & Hrun & Hsrc' & Hok' & Hpos' & Hall & Hge & Hsort).
  { rewrite E in Hlen2. rewrite E2 in Hlen2, Hlen3. simpl in *. lia. }
  exists (tok :: toks), (pos st2 :: offs), st'.
  rewrite Hrun, <- app_assoc. cbn [app].
  split; [reflexivity |]. split; [congruence |]. split; [exact Hok' |].
  split; [congruence |]. split; [| split].
  - constructor.
    + unfold token_at. rewrite <- Hsrc2. split; [| split; [| split]].
      * now destruct (rest_cons_pos _ E2) as (? & _).
      * rewrite Hl, Hc. apply Hok2.
      * exact Ht.
      * exact Hlex.
    + now rewrite <- Hsrc3.
  - constructor; [exact Hpos2 |].
    eapply Forall_impl; [| exact Hge]. cbn beta. intros p Hp. lia.
  - constructor; [exact Hsort |].
    eapply Forall_impl; [| exact Hge]. cbn beta. intros p Hp. lia.
Qed.

Lemma tokenize_run (st : Tokenizer.t) :
  cursor_ok st ->
  exists toks offs st',
    Tokenizer.tokenize st =
    Ok (toks ++ [Token.Token END_OF_FILE [] (line st') (column st')], st') /\
    source st' = source st /\ cursor_ok st' /\
    pos st' = length (source st) /\
    Forall2 (token_at (source st)) offs toks /\
    StronglySorted lt offs.
Proof.
  intros Hok. unfold Tokenizer.tokenize. repeat run_step.
  destruct (tokenize_loop_run [] Hok (fuel_enough st)) as
    (toks & offs & st' & Hrun & Hsrc & Hok' & Hpos & Hall & _ & Hsort).
  rewrite Hrun. exists toks, offs, st'. cbn [app].
  split; [reflexivity | tauto].
Qed.

Lemma cursor_ok_Tokenizer (src : list ascii) :
  cursor_ok (Tokenizer.Tokenizer src).
Proof. split; [simpl; lia | reflexivity]. Qed.

Lemma tokenize_source_run (src : list ascii) :
  exists toks offs l c,
    tokenize_source src = Ok (toks ++ [Token.Token END_OF_FILE [] l c]) /\
    (l, c) = int_position_of src (length src) /\
    Forall2 (token_at src) offs toks /\
    StronglySorted lt offs.
Proof.
  destruct (tokenize_run (cursor_ok_Tokenizer src)) as
    (toks & offs & st' & Hrun & Hsrc & Hok' & Hpos & Hall & Hsort).
  cbn [source Tokenizer.Tokenizer] in *.
  exists toks, offs, (line st'), (column st'). unfold tokenize_source.
  rewrite Hrun. split; [reflexivity |]. split; [| tauto].
  destruct Hok' as [_ H]. now rewrite H, Hsrc, Hpos.
Qed.

Lemma token_at_not_end_of_file (src : list ascii) (offs : list nat)
  (toks : list Token.t) :
  Forall2 (token_at src) offs toks ->
  Forall (fun tok => Token.type tok <> END_OF_FILE) toks.
Proof.
  induction 1 as [| p tok offs toks Hp _ IH]; constructor; [| exact IH].
  apply Hp.
Qed.

(** [line] and [column] stay within one more than the number of characters
    consumed. *)
Lemma position_of_bound (src : list ascii) (p : nat) :
  (1 <= fst (position_of src p) <= 1 + Z.of_nat p)%Z /\
  (1 <= snd (position_of src p) <= 1 + Z.of_nat p)%Z.
Proof.
  unfold position_of.
  assert (H : forall cs q (n : Z),
    (1 <= fst q <= 1 + n)%Z /\ (1 <= snd q <= 1 + n)%Z ->
    (1 <= fst (fold_left step_position cs q)
       <= 1 + n + Z.of_nat (length cs))%Z /\
    (1 <= snd (fold_left step_position cs q)
       <= 1 + n + Z.of_nat (length cs))%Z).
  { induction cs as [| c cs IH]; intros q n Hq; simpl fold_left.
    - cbn [length]. lia.
    - specialize (IH (step_position q c) (n + 1)%Z).
      assert (Hs : (1 <= fst (step_position q c) <= 1 + (n + 1))%Z /\
                   (1 <= snd (step_position q c) <= 1 + (n + 1))%Z).
      { unfold step_position. destruct (c =? NL)%char; cbn [fst snd]; lia. }
      specialize (IH Hs). cbn [length]. lia. }
  assert (H0 : (1 <= fst (1, 1)%Z <= 1 + 0)%Z /\ (1 <= snd (1, 1)%Z <= 1 + 0)%Z)
    by (cbn [fst snd]; lia).
  specialize (H (firstn p src) (1, 1)%Z 0%Z H0).
  pose proof (firstn_le_length p src) as Hl. lia.
Qed.

(** ** Positions in [int] *)

Lemma int_wrap_small (z : Z) :
  (-2147483648 <= z < 2147483648)%Z -> int_wrap z = z.
Proof. intros H. unfold int_wrap. rewrite Z.mod_small; lia. Qed.

Lemma int_wrap_range (z : Z) :
  (-2147483648 <= int_wrap z < 2147483648)%Z.
Proof.
  unfold int_wrap.
  pose proof (Z.mod_pos_bound (z + 2147483648) 4294967296 eq_refl). lia.
Qed.

Lemma int_wrap_add (a b : Z) :
  int_wrap (int_wrap a + b) = int_wrap (a + b).
Proof.
  unfold int_wrap. f_equal.
  replace ((a + 2147483648) mod 4294967296 - 2147483648 + b + 2147483648)%Z
    with ((a + 2147483648) mod 4294967296 + b)%Z by lia.
  rewrite Zplus_mod_idemp_l. f_equal. lia.
Qed.

Lemma fold_int_step_wrap (cs : list ascii) (q q' : Z * Z) :
  fst q = int_wrap (fst q') -> snd q = int_wrap (snd q') ->
  fold_left int_step cs q =
  (int_wrap (fst (fold_left step_position cs q')),
   int_wrap (snd (fold_left step_position cs q'))).
Proof.
  revert q q'. induction cs as [| c cs IH]; intros q q' Hf Hs.
  - cbn [fold_left]. rewrite <- Hf, <- Hs. now destruct q.
  - cbn [fold_left]. apply IH; unfold int_step, step_position;
      destruct (c =? NL)%char; cbn [fst snd]; auto;
      rewrite ?Hf, ?Hs; apply int_wrap_add.
Qed.

(** The position in [int] is the position of the rule, wrapped. *)
Lemma int_position_of_wrap (src : list ascii) (p : nat) :
  int_position_of src p =
  (int_wrap (fst (position_of src p)), int_wrap (snd (position_of src p))).
Proof. unfold int_position_of, position_of. now apply fold_int_step_wrap. Qed.

(** At the largest [int] the increment of [advance] wraps around. *)
Example advance_wraps :
  advance (mk [NL] 0 2147483647 2147483647) =
  Ok (NL, mk [NL] 1 (-2147483648) 1) /\
  advance (mk (s "x") 0 2147483647 2147483647) =
  Ok ("x"%char, mk (s "x") 1 2147483647 (-2147483648)).
Proof. split; reflexivity. Qed.

Lemma int_position_range (src : list ascii) (p : nat) :
  (-2147483648 <= fst (int_position_of src p) < 2147483648)%Z /\
  (-2147483648 <= snd (int_position_of src p) < 2147483648)%Z.
Proof.
  rewrite int_position_of_wrap. cbn [fst snd].
  split; apply int_wrap_range.
Qed.

(** Below [2^31 - 1] characters no increment overflows. *)
Lemma int_position_small (src : list ascii) (p : nat) :
  (Z.of_nat p < 2147483647)%Z ->
  int_position_of src p = position_of src p.
Proof.
  intros Hp. rewrite int_position_of_wrap.
  destruct (position_of_bound src p) as [H1 H2].
  rewrite !int_wrap_small by lia. now destruct (position_of src p).
Qed.

(** ** The token sequence *)

(** The two scenarios of the specification that involve neither a comment
    nor a string. *)
Example tokenize_declaration :
  tokenize_source (s "int x = 42;") =
  Ok [ Token.Token KEYWORD (s "int") 1 1; Token.Token IDENTIFIER (s "x") 1 5;
       Token.Token OPERATOR (s "=") 1 7; Token.Token NUMBER (s "42") 1 9;
       Token.Token PUNCTUATION (s ";") 1 11;
       Token.Token END_OF_FILE [] 1 12 ].
Proof. reflexivity. Qed.

Example tokenize_member_access :
  tokenize_source (s "a->b::c") =
  Ok [ Token.Token IDENTIFIER (s "a") 1 1; Token.Token OPERATOR (s "->") 1 2;
       Token.Token IDENTIFIER (s "b") 1 4; Token.Token OPERATOR (s "::") 1 5;
       Token.Token IDENTIFIER (s "c") 1 7; Token.Token END_OF_FILE [] 1 8 ].
Proof. reflexivity. Qed.

(** C1 (the code departs from the claim).  On the input [// comment],
    newline, [x] the scan returns three tokens, not two: [skipComments]
    stops in front of the newline, and the round of the loop that skipped
    the comment goes on to the dispatch without skipping whitespace again,
    so the newline becomes a token of kind [UNKNOWN] at line 1, column
    11.  In the same way the blank behind a block comment becomes a token
    of kind [UNKNOWN]. *)
Theorem line_comment_newline_token :
  tokenize_source (s "// comment" ++ [NL] ++ s "x") =
  Ok [ Token.Token UNKNOWN [NL] 1 11;
       Token.Token IDENTIFIER (s "x") 2 1;
       Token.Token END_OF_FILE [] 2 2 ] /\
  tokenize_source (s "/* c */ x") =
  Ok [ Token.Token UNKNOWN (s " ") 1 8;
       Token.Token IDENTIFIER (s "x") 1 9;
       Token.Token END_OF_FILE [] 1 10 ].
Proof. split; vm_compute; reflexivity. Qed.

(** C2.  For every input string [tokenize] returns (no read outside the
    buffer, no loop that runs on), and the last token of the sequence it
    returns has kind [END_OF_FILE]. *)
Theorem tokenize_terminates (src : list ascii) :
  exists front eof,
    tokenize_source src = Ok (front ++ [eof]) /\
    last (front ++ [eof]) eof = eof /\
    Token.type eof = END_OF_FILE.
Proof.
  destruct (tokenize_source_run src) as (toks & offs & l & c & Hrun & _).
  exists toks, (Token.Token END_OF_FILE [] l c).
  split; [exact Hrun |]. split; [apply last_last | reflexivity].
Qed.

(** C3.  For every input string the sequence holds exactly one token of
    kind [END_OF_FILE]: it is the last one, no token before it has that
    kind, and its line and column are those of the cursor when the scan
    ends, which is the position after the last character of the input in
    the arithmetic of [int].
    The empty input gives the one token [END_OF_FILE] at line 1,
    column 1. *)
Theorem tokenize_one_end_of_file :
  (forall src : list ascii,
     exists front eof final,
       Tokenizer.tokenize (Tokenizer.Tokenizer src) =
       Ok (front ++ [eof], final) /\
       Token.type eof = END_OF_FILE /\
       Forall (fun tok => Token.type tok <> END_OF_FILE) front /\
       Token.line eof = line final /\ Token.column eof = column final /\
       pos final = length src /\
       (line final, column final) = int_position_of src (length src)) /\
  tokenize_source [] = Ok [Token.Token END_OF_FILE [] 1 1].
Proof.
  split; [| reflexivity]. intros src.
  destruct (tokenize_run (cursor_ok_Tokenizer src)) as
    (toks & offs & st' & Hrun & Hsrc & Hok' & Hpos & Hall & Hsort).
  cbn [source Tokenizer.Tokenizer] in *.
  exists toks, (Token.Token END_OF_FILE [] (line st') (column st')), st'.
  split; [exact Hrun |]. split; [reflexivity |].
  split; [exact (token_at_not_end_of_file Hall) |].
  split; [reflexivity |]. split; [reflexivity |]. split; [exact Hpos |].
  destruct Hok' as [_ H]. now rewrite H, Hsrc, Hpos.
Qed.

Lemma preserves_cursor_jump {A : Type} (m : M A) :
  (forall st, exists a n, m st = Ok (a, jump n st)) -> preserves_cursor m.
Proof.
  intros H st Hok. destruct (H st) as (a & n & Hrun).
  exists a, (jump n st). split; [exact Hrun |].
  split; [apply source_jump |].
  split; [now apply pos_jump_mono | now apply cursor_ok_jump].
Qed.

(** C4.  The cursor starts at offset 0, line 1, column 1.  [advance] on a
    newline adds 1 to [line] and sets [column] to 1; on any other
    character it leaves [line] and adds 1 to [column]; at the end of the
    buffer it changes nothing.  The additions are those of [int]: exact
    below the largest [int], wrapped at it.  Every member function that
    moves the cursor, [tokenize] included, takes a state whose [line] and
    [column] are the position of the character at [pos] under this rule to
    a state of that kind.  Such a position is a pair of [int]s, and for an
    offset below [2^31 - 1] it is the one the rule gives without any bound
    on the numbers. *)
Theorem cursor_invariant :
  (forall src : list ascii,
     pos (Tokenizer.Tokenizer src) = 0 /\
     line (Tokenizer.Tokenizer src) = 1%Z /\
     column (Tokenizer.Tokenizer src) = 1%Z) /\
  (forall st c,
     nth_error (source st) (pos st) = Some c ->
     advance st =
     Ok (c, mk (source st) (S (pos st))
              (if (c =? NL)%char then int_wrap (line st + 1) else line st)
              (if (c =? NL)%char then 1%Z else int_wrap (column st + 1)))) /\
  (forall z : Z,
     (-2147483648 <= z < 2147483647)%Z -> int_wrap (z + 1) = (z + 1)%Z) /\
  (forall st, length (source st) <= pos st -> advance st = Ok (NUL, st)) /\
  preserves_cursor advance /\
  preserves_cursor skipWhitespace /\
  preserves_cursor skipComments /\
  preserves_cursor readIdentifierOrKeyword /\
  preserves_cursor readNumber /\
  preserves_cursor readString /\
  preserves_cursor readOperator /\
  preserves_cursor Tokenizer.tokenize /\
  (forall src p,
     (-2147483648 <= fst (int_position_of src p) < 2147483648)%Z /\
     (-2147483648 <= snd (int_position_of src p) < 2147483648)%Z) /\
  (forall src p,
     (Z.of_nat p < 2147483647)%Z ->
     int_position_of src p = position_of src p).
Proof.
  split; [now intros src |]. split.
  { intros st c Hc. rewrite advance_run. unfold adv.
    rewrite <- (Nat.add_0_r (pos st)), nth_error_rest in Hc.
    destruct (rest st) as [| a r]; [discriminate |].
    simpl in Hc. inversion Hc; subst a. simpl hd.
    now destruct (c =? NL)%char. }
  split; [intros z Hz; apply int_wrap_small; lia |].
  split.
  { intros st Hle. rewrite advance_run. unfold adv, rest.
    now rewrite skipn_all2. }
  split.
  { apply preserves_cursor_jump. intros st. exists (hd NUL (rest st)), 1.
    apply advance_run. }
  split.
  { apply preserves_cursor_jump. intros st. do 2 eexists.
    apply skipWhitespace_run. }
  split.
  { apply preserves_cursor_jump. intros st.
    destruct (skipComments_run st) as [n Hn]. now exists tt, n. }
  split.
  { apply preserves_cursor_jump. intros st. do 2 eexists.
    apply readIdentifierOrKeyword_run. }
  split.
  { apply preserves_cursor_jump. intros st. do 2 eexists.
    apply readNumber_run. }
  split.
  { apply preserves_cursor_jump. intros st. do 2 eexists.
    apply readString_run. }
  split.
  { apply preserves_cursor_jump. intros st. do 2 eexists.
    apply readOperator_run. }
  split; [| split; [exact int_position_range | exact int_position_small]].
  intros st Hok.
  destruct (tokenize_run Hok) as
    (toks & offs & st' & Hrun & Hsrc & Hok' & Hpos & _).
  do 2 eexists. split; [exact Hrun |]. split; [exact Hsrc |].
  split; [| exact Hok']. rewrite Hpos. apply Hok.
Qed.

(** C10.  For every input string the closing [END_OF_FILE] token has the
    empty string as its text. *)
Theorem end_of_file_text_empty (src : list ascii) :
  exists front eof,
    tokenize_source src = Ok (front ++ [eof]) /\
    Token.type eof = END_OF_FILE /\
    Token.value eof = [].
Proof.
  destruct (tokenize_source_run src) as (toks & offs & l & c & Hrun & _).
  exists toks, (Token.Token END_OF_FILE [] l c).
  split; [exact Hrun |]. now split.
Qed.

(** ** Identifiers and keywords *)

Lemma scan_identifier_chars (l : list ascii) :
  Forall (fun a => is_identifier_char a = true)
    (firstn (scan_len at_identifier_char l) l) /\
  is_identifier_char (nth (scan_len at_identifier_char l) l NUL) = false.
Proof.
  induction l as [| c r [IH1 IH2]]; [now split |].
  cbn [scan_len].
  change (at_identifier_char (c :: r)) with (is_identifier_char c).
  destruct (is_identifier_char c) eqn:Hc.
  - split; [now constructor | exact IH2].
  - split; [constructor | exact Hc].
Qed.

Lemma keywords_count_In (value : list ascii) :
  keywords_count value = true <-> In value keywords.
Proof.
  unfold keywords_count. rewrite existsb_exists. split.
  - intros (k & Hin & Heq). unfold list_ascii_eqb in Heq.
    destruct (list_eq_dec ascii_dec value k); [now subst | discriminate].
  - intros Hin. exists value. split; [exact Hin |].
    unfold list_ascii_eqb. now destruct (list_eq_dec ascii_dec value value).
Qed.

(** C6.  At a letter or an underscore the token pushed is the one
    [readIdentifierOrKeyword] returns.  Its text is the longest run of
    alphanumeric characters and underscores at the cursor: it is what the
    buffer holds there, it starts with the character at the cursor, all its
    characters are of that kind and the character after it is not.  The
    kind is [KEYWORD] exactly when the text is one of the reserved words,
    and [IDENTIFIER] exactly when it is not. *)
Theorem keyword_classification (st : Tokenizer.t) (c : ascii)
  (r : list ascii) :
  rest st = c :: r ->
  is_identifier_start c = true ->
  exists tok st',
    readIdentifierOrKeyword st = Ok (tok, st') /\
    dispatch st = Ok (tok, st') /\
    firstn (length (Token.value tok)) (rest st) = Token.value tok /\
    hd NUL (Token.value tok) = c /\
    Forall (fun a => is_identifier_char a = true) (Token.value tok) /\
    is_identifier_char (nth (length (Token.value tok)) (rest st) NUL) = false /\
    rest st' = skipn (length (Token.value tok)) (rest st) /\
    (Token.type tok = KEYWORD <-> In (Token.value tok) keywords) /\
    (Token.type tok = IDENTIFIER <-> ~ In (Token.value tok) keywords).
Proof.
  intros E Hid. do 2 eexists. split; [apply readIdentifierOrKeyword_run |].
  cbn [Token.value Token.type].
  destruct (scan_identifier_chars (rest st)) as [Hall Hnext].
  rewrite length_firstn_scan.
  split.
  { unfold dispatch. repeat run_step. rewrite E. cbn [nth]. rewrite Hid.
    rewrite <- E. rewrite readIdentifierOrKeyword_run.
    now rewrite length_firstn_scan. }
  split; [reflexivity |]. split.
  { rewrite E. cbn [scan_len].
    change (at_identifier_char (c :: r)) with (isalnum c || (c =? "_")%char).
    unfold is_identifier_start in Hid. unfold isalnum.
    destruct (isalpha c); [reflexivity |]. cbn [orb] in *.
    now rewrite Hid, orb_true_r. }
  split; [exact Hall |]. split; [exact Hnext |].
  split; [apply rest_jump |].
  destruct (keywords_count _) eqn:Hk; split; split; intros H;
    try reflexivity; try discriminate.
  - now apply keywords_count_In.
  - apply keywords_count_In in Hk. contradiction.
  - apply keywords_count_In in H. congruence.
  - intros Hin. apply keywords_count_In in Hin. congruence.
Qed.

Lemma keyword_classification_witness :
  exists tok st',
    readIdentifierOrKeyword (Tokenizer.Tokenizer (s "while1 (x)")) =
    Ok (tok, st') /\
    Token.value tok = s "while1" /\ Token.type tok = IDENTIFIER.
Proof.
  destruct (@keyword_classification (Tokenizer.Tokenizer (s "while1 (x)"))
              "w"%char (s "hile1 (x)") eq_refl eq_refl)
    as (tok & st' & Hrun & _).
  exists tok, st'. split; [exact Hrun |].
  vm_compute in Hrun. inversion Hrun. split; reflexivity.
Defined.

(** ** Operators *)

Lemma is_two_char_operator_In (c next : ascii) :
  is_two_char_operator c next = true <-> In [c; next] two_char_operators.
Proof.
  split.
  - unfold is_two_char_operator. intros H.
    repeat (apply orb_prop in H; destruct H as [H | H]);
      apply andb_prop in H; destruct H as [Hc Hn];
      apply Ascii.eqb_eq in Hc; apply Ascii.eqb_eq in Hn; subst c next;
      cbv; tauto.
  - intros H. cbv [two_char_operators map s list_ascii_of_string] in H.
    cbn [In] in H.
    repeat (destruct H as [H | H]; [inversion H; reflexivity |]).
    contradiction.
Qed.

Lemma operator_start_dispatch (c : ascii) :
  is_operator_start c = true ->
  is_identifier_start c = false /\ isdigit c = false /\
  (c =? DQUOTE)%char = false /\ is_punctuation c = false.
Proof.
  unfold is_operator_start. intros H.
  repeat (apply orb_prop in H; destruct H as [H | H]);
    apply Ascii.eqb_eq in H; subst c; repeat split; reflexivity.
Qed.

(** C7.  With the cursor at an operator character [c], followed by [next]
    (NUL when [c] is the last character of the buffer), the token pushed is
    the one [readOperator] returns, of kind [OPERATOR].  When [c] and
    [next] form one of the pairs of the table, the text is the two
    characters and the cursor has moved by two; otherwise the text is [c]
    alone and the cursor has moved by one.  The input [==] gives one
    operator token, the input [<<] gives two. *)
Theorem readOperator_two_char (st : Tokenizer.t) (c : ascii)
  (r : list ascii) :
  rest st = c :: r ->
  is_operator_start c = true ->
  (exists tok st',
     readOperator st = Ok (tok, st') /\
     dispatch st = Ok (tok, st') /\
     Token.type tok = OPERATOR /\
     (In [c; nth 0 r NUL] two_char_operators ->
      Token.value tok = [c; nth 0 r NUL] /\ pos st' = pos st + 2) /\
     (~ In [c; nth 0 r NUL] two_char_operators ->
      Token.value tok = [c] /\ pos st' = pos st + 1)) /\
  tokenize_source (s "==") =
  Ok [ Token.Token OPERATOR (s "==") 1 1; Token.Token END_OF_FILE [] 1 3 ] /\
  tokenize_source (s "<<") =
  Ok [ Token.Token OPERATOR (s "<") 1 1; Token.Token OPERATOR (s "<") 1 2;
       Token.Token END_OF_FILE [] 1 3 ].
Proof.
  intros E Hop. split; [| split; reflexivity].
  pose proof (readOperator_run st) as Hrun. cbv zeta in Hrun.
  rewrite E in Hrun. cbn [hd nth] in Hrun.
  destruct (operator_text_prefix c r) as [Hne Hpre]. cbn [nth] in Hne, Hpre.
  assert (Hlen : length (operator_text c (nth 0 r NUL)) <= length (rest st)).
  { rewrite E, <- Hpre at 1. rewrite length_firstn. lia. }
  do 2 eexists. split; [exact Hrun |]. split.
  { destruct (operator_start_dispatch c Hop) as (H1 & H2 & H3 & H4).
    unfold dispatch. repeat run_step. rewrite E. cbn [nth].
    rewrite H1, H2, H3, H4, Hop. exact Hrun. }
  split; [reflexivity |]. cbn [Token.value].
  rewrite (pos_jump _ Hlen). unfold operator_text.
  split; intros H.
  - apply is_two_char_operator_In in H. now rewrite H.
  - destruct (is_two_char_operator c (nth 0 r NUL)) eqn:Ht.
    + apply is_two_char_operator_In in Ht. contradiction.
    + now split.
Qed.

Lemma readOperator_two_char_witness :
  exists tok st',
    readOperator (mk (s "a->b") 1 1 2) = Ok (tok, st') /\
    Token.value tok = s "->" /\ pos st' = 3.
Proof.
  destruct (@readOperator_two_char (mk (s "a->b") 1 1 2) "-"%char (s ">b")
              eq_refl eq_refl)
    as ((tok & st' & Hrun & _ & _ & Htwo & _) & _).
  exists tok, st'. split; [exact Hrun |].
  apply Htwo. cbv. tauto.
Defined.

(** ** String literals *)

Lemma string_body_spec_plain (pre l : list ascii) :
  Forall (fun a => is_plain a = true) pre ->
  string_body_spec (pre ++ l) =
  (pre ++ fst (string_body_spec l), length pre + snd (string_body_spec l)).
Proof.
  induction 1 as [| a pre Ha _ IH];
    [cbn [app length Nat.add]; now destruct (string_body_spec l) |].
  cbn [app string_body_spec]. unfold is_plain in Ha.
  apply negb_true_iff in Ha. apply orb_false_iff in Ha. destruct Ha as [Ha Hb].
  rewrite Ha, Hb, IH. reflexivity.
Qed.

Lemma string_body_spec_escape (d : ascii) (l : list ascii) :
  d <> NUL ->
  string_body_spec (BACKSLASH :: d :: l) =
  (d :: fst (string_body_spec l), S (S (snd (string_body_spec l)))).
Proof.
  intros Hd. cbn [string_body_spec].
  change ((BACKSLASH =? DQUOTE)%char || (BACKSLASH =? NUL)%char) with false.
  change (BACKSLASH =? BACKSLASH)%char with true. cbv iota.
  apply Ascii.eqb_neq in Hd. now rewrite Hd.
Qed.

Lemma rest_readString (st : Tokenizer.t) (body : list ascii) :
  rest st = DQUOTE :: body ->
  readString st =
  Ok (Token.Token STRING_LITERAL (fst (string_body_spec body)) (line st)
        (column st),
      jump (string_len (DQUOTE :: body)) st).
Proof. intros E. rewrite readString_run, E. reflexivity. Qed.

(** C8, as amended.  With the cursor at a double quote, [readString]
    returns a token of kind [STRING_LITERAL] recorded at the quote, whose
    text is the body with the quotes left out and the backslashes dropped:
    after plain characters, a backslash followed by a character [d] other
    than NUL contributes [d] alone and the scan goes on behind [d], and a
    double quote ends the text.  The closing quote, when there is one, is
    consumed.  The eight characters [DQUOTE a b BACKSLASH DQUOTE c d
    DQUOTE], six of them between the outer quotes, give one string token
    with the text [a b DQUOTE c d]. *)
Theorem readString_unescapes (st : Tokenizer.t) (body : list ascii) :
  rest st = DQUOTE :: body ->
  (exists st',
     readString st =
     Ok (Token.Token STRING_LITERAL (fst (string_body_spec body)) (line st)
           (column st), st') /\
     dispatch st = readString st /\
     rest st' =
     (if (nth (snd (string_body_spec body)) body NUL =? DQUOTE)%char
      then skipn (S (snd (string_body_spec body))) body
      else skipn (snd (string_body_spec body)) body)) /\
  (forall pre d post,
     Forall (fun a => is_plain a = true) pre -> d <> NUL ->
     fst (string_body_spec (pre ++ BACKSLASH :: d :: post)) =
     pre ++ d :: fst (string_body_spec post)) /\
  (forall pre post,
     Forall (fun a => is_plain a = true) pre ->
     string_body_spec (pre ++ DQUOTE :: post) = (pre, length pre)) /\
  tokenize_source
    ([DQUOTE] ++ s "ab" ++ [BACKSLASH; DQUOTE] ++ s "cd" ++ [DQUOTE]) =
  Ok [ Token.Token STRING_LITERAL (s "ab" ++ [DQUOTE] ++ s "cd") 1 1;
       Token.Token END_OF_FILE [] 1 9 ].
Proof.
  intros E. split; [| split; [| split; [| reflexivity]]].
  - eexists. split; [apply (rest_readString _ E) |]. split.
    + unfold dispatch. repeat run_step. rewrite E. reflexivity.
    + rewrite rest_jump, E. unfold string_len. cbn [tl].
      now destruct (nth _ body NUL =? DQUOTE)%char.
  - intros pre d post Hpre Hd.
    now rewrite (string_body_spec_plain _ Hpre), (string_body_spec_escape _ Hd).
  - intros pre post Hpre. rewrite (string_body_spec_plain _ Hpre).
    cbn. now rewrite app_nil_r, Nat.add_0_r.
Qed.

(** C8 as it is stated fails where a NUL character follows the backslash:
    [peek] answers NUL at the end of the buffer, and [readString] tests
    for the end of input by comparing with NUL.  On [DQUOTE BACKSLASH NUL
    DQUOTE] the backslash is consumed, the NUL after it is not added to the
    text, and the scan stops in front of the NUL, so the double quote
    behind it is not consumed either.  The example of the claim has six
    characters between its outer quotes, not seven. *)
Lemma readString_backslash_NUL :
  readString (Tokenizer.Tokenizer [DQUOTE; BACKSLASH; NUL; DQUOTE]) =
  Ok (Token.Token STRING_LITERAL [] 1 1,
      mk [DQUOTE; BACKSLASH; NUL; DQUOTE] 2 1 3) /\
  tokenize_source [DQUOTE; BACKSLASH; NUL; DQUOTE] =
  Ok [ Token.Token STRING_LITERAL [] 1 1; Token.Token UNKNOWN [NUL] 1 3;
       Token.Token STRING_LITERAL [] 1 4; Token.Token END_OF_FILE [] 1 5 ] /\
  length (s "ab" ++ [BACKSLASH; DQUOTE] ++ s "cd") = 6.
Proof. repeat split. Qed.

Lemma readString_unescapes_witness :
  exists st',
    readString (mk (s "x = " ++ [DQUOTE; BACKSLASH] ++ s "n" ++ [DQUOTE]) 4 1 5)
    = Ok (Token.Token STRING_LITERAL (s "n") 1 5, st') /\
    rest st' = [].
Proof.
  destruct (@readString_unescapes
              (mk (s "x = " ++ [DQUOTE; BACKSLASH] ++ s "n" ++ [DQUOTE]) 4 1 5)
              ([BACKSLASH] ++ s "n" ++ [DQUOTE]) eq_refl)
    as ((st' & Hrun & _ & Hrest) & _).
  exists st'. split; [exact Hrun | exact Hrest].
Defined.

(** C9.  When the scan of a string body runs to the end of the buffer
    without meeting a closing quote, [readString] still returns a token of
    kind [STRING_LITERAL] with the text collected so far, and the cursor
    stops at the end of the buffer.  In particular, when the buffer ends
    with plain characters and then a backslash, the text is the plain
    characters.  When the loop of [readString] stands on a backslash that
    is the last character of the buffer, it consumes the backslash, adds
    nothing to the text and stops at the end of the buffer; no read outside
    the buffer takes place. *)
Theorem readString_end_of_input :
  (forall st body,
     rest st = DQUOTE :: body ->
     snd (string_body_spec body) = length body ->
     exists st',
       readString st =
       Ok (Token.Token STRING_LITERAL (fst (string_body_spec body)) (line st)
             (column st), st') /\
       source st' = source st /\
       pos st' = length (source st)) /\
  (forall st pre,
     rest st = DQUOTE :: pre ++ [BACKSLASH] ->
     Forall (fun a => is_plain a = true) pre ->
     exists st',
       readString st =
       Ok (Token.Token STRING_LITERAL pre (line st) (column st), st') /\
       source st' = source st /\
       pos st' = length (source st)) /\
  (forall st value fuel,
     rest st = [BACKSLASH] ->
     2 <= fuel ->
     exists st',
       readString_loop fuel value st = Ok (value, st') /\
       source st' = source st /\
       pos st' = S (pos st) /\
       pos st' = length (source st)).
Proof.
  assert (Hgen : forall st body,
     rest st = DQUOTE :: body ->
     snd (string_body_spec body) = length body ->
     exists st',
       readString st =
       Ok (Token.Token STRING_LITERAL (fst (string_body_spec body)) (line st)
             (column st), st') /\
       source st' = source st /\
       pos st' = length (source st)).
  { intros st body E Hend. eexists.
    split; [apply (rest_readString _ E) |]. split; [apply source_jump |].
    assert (Hn : string_len (DQUOTE :: body) = length (rest st)).
    { unfold string_len. cbn [tl]. rewrite Hend, nth_overflow by lia.
      now rewrite E. }
    rewrite pos_jump by lia. rewrite Hn, length_rest.
    destruct (rest_cons_pos _ E) as (Hlt & _). lia. }
  split; [exact Hgen |]. split.
  - intros st pre E Hpre.
    pose proof (string_body_spec_plain [BACKSLASH] Hpre) as Hb.
    cbn [string_body_spec fst snd] in Hb.
    change ((BACKSLASH =? DQUOTE)%char || (BACKSLASH =? NUL)%char)
      with false in Hb.
    change (BACKSLASH =? BACKSLASH)%char with true in Hb.
    cbn [fst snd] in Hb. rewrite app_nil_r in Hb.
    destruct (Hgen st _ E) as (st' & Hrun & Hsrc & Hpos).
    { rewrite Hb, length_app. reflexivity. }
    rewrite Hb in Hrun. exists st'. now repeat split.
  - intros st value fuel E Hf. exists (jump 1 st).
    assert (Hlen : length (rest st) < fuel) by (rewrite E; simpl; lia).
    rewrite (@readString_loop_run fuel value st Hlen), E.
    split; [cbn; now rewrite app_nil_r |]. split; [apply source_jump |].
    assert (Hp : pos (jump 1 st) = pos st + 1)
      by (apply pos_jump; rewrite E; simpl; lia).
    rewrite Hp. pose proof (length_rest st) as Hl. rewrite E in Hl.
    destruct (rest_cons_pos _ E) as (Hlt & _). simpl in Hl. lia.
Qed.

Lemma readString_end_of_input_witness :
  (exists st',
     readString (Tokenizer.Tokenizer ([DQUOTE] ++ s "ab" ++ [BACKSLASH])) =
     Ok (Token.Token STRING_LITERAL (s "ab") 1 1, st') /\
     pos st' = 4) /\
  (exists st',
     readString_loop 5 (s "ab")
       (mk ([DQUOTE] ++ s "ab" ++ [BACKSLASH]) 3 1 4) =
     Ok (s "ab", st') /\
     pos st' = 4).
Proof.
  split.
  - destruct (proj1 (proj2 readString_end_of_input)
                (Tokenizer.Tokenizer ([DQUOTE] ++ s "ab" ++ [BACKSLASH]))
                (s "ab") eq_refl)
      as (st' & Hrun & _ & Hpos).
    + repeat constructor.
    + exists st'. split; [exact Hrun | exact Hpos].
  - destruct (proj2 (proj2 readString_end_of_input)
                (mk ([DQUOTE] ++ s "ab" ++ [BACKSLASH]) 3 1 4) (s "ab") 5
                eq_refl)
      as (st' & Hrun & _ & _ & Hpos); [lia |].
    exists st'. split; [exact Hrun | exact Hpos].
Defined.

(** * Further properties of the scanner *)

(** ** Whitespace and comments *)

Lemma scan_len_head (P : ascii -> bool) (cond : list ascii -> bool) :
  (forall c r, cond (c :: r) = P c) ->
  forall l,
    Forall (fun a => P a = true) (firstn (scan_len cond l) l) /\
    (skipn (scan_len cond l) l = [] \/
     P (hd NUL (skipn (scan_len cond l) l)) = false).
Proof.
  intros Hc. induction l as [| c r [IH1 IH2]]; [split; [constructor | now left] |].
  cbn [scan_len]. rewrite Hc. destruct (P c) eqn:E.
  - split; [now constructor | exact IH2].
  - split; [constructor | right; exact E].
Qed.

Lemma scan_len_stop (P : ascii -> bool) (cond : list ascii -> bool) :
  (forall c r, cond (c :: r) = P c) ->
  forall pre tail,
    Forall (fun a => P a = true) pre ->
    tail = [] \/ P (hd NUL tail) = false ->
    scan_len cond (pre ++ tail) = length pre.
Proof.
  intros Hc pre tail Hpre Htail.
  induction Hpre as [| a pre Ha _ IH].
  - destruct tail as [| c r]; [reflexivity |]. cbn [app scan_len].
    rewrite Hc. destruct Htail as [H | H]; [discriminate |].
    cbn [hd] in H. now rewrite H.
  - cbn [app scan_len length]. now rewrite Hc, Ha, IH.
Qed.

Lemma jump_same_line (n : nat) (st : Tokenizer.t) :
  n <= length (rest st) ->
  Forall (fun c => c <> NL) (firstn n (rest st)) ->
  line (jump n st) = line st /\
  column (jump n st) =
  match n with
  | O => column st
  | S _ => int_wrap (column st + Z.of_nat n)
  end.
Proof.
  revert st. induction n as [| n IH]; intros st Hn Hall.
  - cbn [jump]. now split.
  - destruct (rest st) as [| c r] eqn:E; [simpl in Hn; lia |].
    cbn [firstn] in Hall. inversion Hall as [| ? ? Hc Hr]; subst.
    cbn [jump]. pose proof (rest_adv_cons _ E) as E1.
    destruct (IH (adv st)) as [Hl Hcol].
    + rewrite E1. simpl in Hn. lia.
    + now rewrite E1.
    + rewrite Hl, Hcol. unfold adv. rewrite E.
      apply Ascii.eqb_neq in Hc. rewrite Hc. cbn [line column].
      split; [reflexivity |]. destruct n as [| n].
      * f_equal; lia.
      * rewrite int_wrap_add. f_equal; lia.
Qed.

Lemma skipComments_len (st : Tokenizer.t) :
  skipComments st = Ok (tt, jump (comment_len (rest st)) st).
Proof.
  unfold skipComments, comment_len. repeat run_step. rewrite nth_0_hd.
  destruct (hd NUL (rest st) =? "/")%char eqn:E0; cbn [andb].
  - repeat run_step.
    destruct (nth 1 (rest st) NUL =? "/")%char eqn:E1.
    + apply skipLineComment_loop_run, fuel_enough.
    + repeat run_step. rewrite nth_0_hd, E0. repeat run_step.
      destruct (nth 1 (rest st) NUL =? "*")%char eqn:E2.
      * repeat run_step.
        change (adv (adv st)) with (jump 2 st).
        rewrite skipBlockComment_loop_run by apply fuel_enough_jump.
        repeat run_step. rewrite jump_add, !rest_jump, !nth_skipn.
        rewrite Nat.add_0_r.
        set (n := scan_len in_block_comment (skipn 2 (rest st))).
        destruct (nth (2 + n) (rest st) NUL =? NUL)%char; cbn [negb];
          repeat run_step; [reflexivity |].
        change (adv (adv (jump (2 + n) st)))
          with (jump 2 (jump (2 + n) st)).
        now rewrite jump_add.
      * reflexivity.
  - repeat run_step. rewrite nth_0_hd, E0. reflexivity.
Qed.

(** X1.  [skipWhitespace] always returns; what it consumes is whitespace
    only, and it stops at the end of the buffer or in front of a character
    that is not whitespace. *)
Theorem skipWhitespace_maximal (st : Tokenizer.t) :
  exists ws st',
    skipWhitespace st = Ok (tt, st') /\
    source st' = source st /\
    rest st = ws ++ rest st' /\
    pos st' = pos st + length ws /\
    Forall (fun c => isspace c = true) ws /\
    (rest st' = [] \/ isspace (hd NUL (rest st')) = false).
Proof.
  set (n := scan_len at_space (rest st)).
  exists (firstn n (rest st)), (jump n st).
  destruct (scan_len_head isspace at_space (fun c r => eq_refl) (rest st))
    as [Hall Hstop]. fold n in Hall, Hstop.
  pose proof (scan_len_le at_space (rest st)) as Hle. fold n in Hle.
  split; [apply skipWhitespace_run |]. split; [apply source_jump |].
  rewrite rest_jump, firstn_skipn, length_firstn, pos_jump by exact Hle.
  repeat split; auto. lia.
Qed.

(** X2.  Away from the two openings, [skipComments] changes nothing: when
    the buffer at the cursor starts neither with two slashes nor with a
    slash and a star, the state is returned as it is.  So a lone slash, or
    a slash that ends the buffer, is never taken for a comment. *)
Theorem skipComments_no_comment (st : Tokenizer.t) :
  firstn 2 (rest st) <> s "//" ->
  firstn 2 (rest st) <> s "/*" ->
  skipComments st = Ok (tt, st).
Proof.
  intros H1 H2. rewrite skipComments_len.
  assert (E : comment_len (rest st) = 0); [| now rewrite E].
  unfold comment_len.
  destruct (rest st) as [| a [| b l]]; cbn [hd nth firstn] in *.
  - reflexivity.
  - change (NUL =? "/")%char with false. change (NUL =? "*")%char with false.
    now rewrite !andb_false_r.
  - destruct (Ascii.eqb_spec a "/"); [subst a | reflexivity]. cbn [andb].
    destruct (Ascii.eqb_spec b "/"); [now subst b |].
    destruct (Ascii.eqb_spec b "*"); [now subst b | reflexivity].
Qed.

Lemma skipComments_no_comment_witness :
  skipComments (mk (s "a / b") 2 1 3) = Ok (tt, mk (s "a / b") 2 1 3).
Proof.
  apply skipComments_no_comment; cbv; discriminate.
Defined.

(** X3.  At two slashes, [skipComments] consumes the comment up to the
    next newline or NUL character or the end of the buffer, and stops in
    front of it: the newline is not consumed.  The line number is
    unchanged and the column has moved by the length of the comment, in
    the arithmetic of [int]. *)
Theorem skipComments_line_comment (st : Tokenizer.t)
  (text tail : list ascii) :
  rest st = s "//" ++ text ++ tail ->
  Forall (fun c => c <> NL /\ c <> NUL) text ->
  tail = [] \/ hd NUL tail = NL \/ hd NUL tail = NUL ->
  exists st',
    skipComments st = Ok (tt, st') /\
    source st' = source st /\
    rest st' = tail /\
    pos st' = pos st + 2 + length text /\
    line st' = line st /\
    column st' = int_wrap (column st + 2 + Z.of_nat (length text)).
Proof.
  intros E Htext Htail.
  set (P := fun c => negb (c =? NL)%char && negb (c =? NUL)%char).
  assert (HP : Forall (fun a => P a = true) (s "//" ++ text)).
  { repeat constructor. eapply Forall_impl; [| exact Htext].
    intros a [Ha Hb]. unfold P. apply Ascii.eqb_neq in Ha, Hb.
    now rewrite Ha, Hb. }
  assert (Hstop : tail = [] \/ P (hd NUL tail) = false).
  { destruct Htail as [H | [H | H]]; [now left | right | right];
      unfold P; rewrite H; reflexivity. }
  assert (Hn : comment_len (rest st) = length (s "//" ++ text)).
  { unfold comment_len. rewrite E. cbn [hd nth app s list_ascii_of_string].
    change (("/" =? "/")%char && ("/" =? "/")%char) with true. cbv iota.
    change ("/"%char :: "/"%char :: text ++ tail)
      with ((s "//" ++ text) ++ tail).
    now apply (scan_len_stop P in_line_comment (fun c r => eq_refl)). }
  assert (Hle : length (s "//" ++ text) <= length (rest st)).
  { rewrite E, app_assoc, (length_app (s "//" ++ text)). lia. }
  assert (Hfirst : firstn (length (s "//" ++ text)) (rest st)
                   = s "//" ++ text).
  { rewrite E, app_assoc. rewrite firstn_app, firstn_all, Nat.sub_diag.
    cbn [firstn]. now rewrite app_nil_r. }
  exists (jump (length (s "//" ++ text)) st).
  rewrite skipComments_len, Hn. split; [reflexivity |].
  split; [apply source_jump |]. split.
  { rewrite rest_jump, E, app_assoc.
    rewrite skipn_app, skipn_all, Nat.sub_diag. reflexivity. }
  destruct (@jump_same_line (length (s "//" ++ text)) st Hle) as [Hl Hc].
  { rewrite Hfirst. eapply Forall_impl; [| exact HP].
    intros a Ha Heq. subst a. discriminate. }
  rewrite (pos_jump _ Hle), Hl, Hc. rewrite length_app.
  change (length (s "//")) with 2. cbn [Nat.add].
  split; [lia |]. split; [reflexivity |]. f_equal. lia.
Qed.

Lemma skipComments_line_comment_witness :
  exists st',
    skipComments (mk (s "x // y" ++ [NL] ++ s "z") 2 1 3) = Ok (tt, st') /\
    rest st' = [NL] ++ s "z" /\ pos st' = 6 /\
    line st' = 1%Z /\ column st' = 7%Z.
Proof.
  destruct (@skipComments_line_comment
              (mk (s "x // y" ++ [NL] ++ s "z") 2 1 3) (s " y")
              ([NL] ++ s "z") eq_refl)
    as (st' & Hrun & _ & Hrest & Hpos & Hl & Hc).
  - repeat constructor; discriminate.
  - right. left. reflexivity.
  - exists st'. repeat split; assumption.
Defined.

Lemma scan_len_block (body after : list ascii) :
  has_close body = false ->
  ~ In NUL body ->
  hd NUL after <> "/"%char ->
  scan_len in_block_comment (body ++ after) =
  length body + scan_len in_block_comment after.
Proof.
  intros Hc Hz Hafter. induction body as [| a b IH]; [reflexivity |].
  cbn [has_close] in Hc. apply orb_false_iff in Hc. destruct Hc as [Ha Hb].
  cbn [app scan_len length]. unfold in_block_comment at 1. cbn [hd nth].
  assert (Hnext : ((a =? "*")%char && (nth 0 (b ++ after) NUL =? "/")%char)
                  = false).
  { destruct b as [| c b']; [| exact Ha]. cbn [app]. rewrite nth_0_hd.
    apply Ascii.eqb_neq in Hafter. rewrite Hafter. apply andb_false_r. }
  assert (Hnz : (a =? NUL)%char = false).
  { apply Ascii.eqb_neq. intros ->. apply Hz. now left. }
  rewrite Hnext, Hnz. cbn [negb andb]. rewrite IH; auto.
  intros Hin. apply Hz. now right.
Qed.

(** X4.  At a slash and a star, [skipComments] consumes the comment
    through the first star directly followed by a slash, both included,
    and stops behind them, when no NUL character occurs before. *)
Theorem skipComments_block_comment (st : Tokenizer.t)
  (body tail : list ascii) :
  rest st = s "/*" ++ body ++ s "*/" ++ tail ->
  has_close body = false ->
  ~ In NUL body ->
  exists st',
    skipComments st = Ok (tt, st') /\
    source st' = source st /\
    rest st' = tail /\
    pos st' = pos st + 4 + length body.
Proof.
  intros E Hc Hz.
  assert (Hscan : scan_len in_block_comment (body ++ s "*/" ++ tail)
                  = length body).
  { rewrite scan_len_block by (try assumption; cbn; discriminate).
    cbn. unfold in_block_comment. cbn. lia. }
  assert (Hn : comment_len (rest st) = 2 + length body + 2).
  { unfold comment_len. rewrite E.
    cbn [hd nth app s list_ascii_of_string skipn].
    change (("/" =? "/")%char && ("*" =? "/")%char) with false.
    change (("/" =? "/")%char && ("*" =? "*")%char) with true. cbv iota zeta.
    change ("*"%char :: "/"%char :: tail) with (s "*/" ++ tail).
    rewrite Hscan, app_nth2, Nat.sub_diag by lia. reflexivity. }
  exists (jump (2 + length body + 2) st).
  rewrite skipComments_len, Hn. split; [reflexivity |].
  split; [apply source_jump |]. split.
  - rewrite rest_jump, E.
    replace (s "/*" ++ body ++ s "*/" ++ tail)
      with ((s "/*" ++ body ++ s "*/") ++ tail)
      by now rewrite <- !app_assoc.
    replace (2 + length body + 2) with (length (s "/*" ++ body ++ s "*/"))
      by (rewrite !length_app; cbn; lia).
    now rewrite skipn_app, skipn_all, Nat.sub_diag.
  - rewrite pos_jump; [lia |]. rewrite E, !length_app. cbn [length s
      list_ascii_of_string]. lia.
Qed.

Lemma skipComments_block_comment_witness :
  exists st',
    skipComments (Tokenizer.Tokenizer (s "/* a * b **/ x")) = Ok (tt, st') /\
    rest st' = s " x" /\ pos st' = 12.
Proof.
  destruct (@skipComments_block_comment
              (Tokenizer.Tokenizer (s "/* a * b **/ x")) (s " a * b *")
              (s " x") eq_refl eq_refl)
    as (st' & Hrun & _ & Hrest & Hpos).
  - cbv. intuition discriminate.
  - exists st'. repeat split; assumption.
Defined.

(** X5.  A block comment that is not closed is consumed to the end of the
    buffer: at a slash and a star with no star directly followed by a
    slash behind them (and no NUL character), [skipComments] stops at the
    end of the buffer, without a failure. *)
Theorem skipComments_unterminated (st : Tokenizer.t) (body : list ascii) :
  rest st = s "/*" ++ body ->
  has_close body = false ->
  ~ In NUL body ->
  exists st',
    skipComments st = Ok (tt, st') /\
    source st' = source st /\
    rest st' = [] /\
    pos st' = length (source st).
Proof.
  intros E Hc Hz.
  assert (Hscan : scan_len in_block_comment body = length body).
  { rewrite <- (app_nil_r body) at 1.
    rewrite scan_len_block by (try assumption; cbn; discriminate).
    cbn. lia. }
  assert (Hn : comment_len (rest st) = 2 + length body).
  { unfold comment_len. rewrite E.
    cbn [hd nth app s list_ascii_of_string skipn].
    change (("/" =? "/")%char && ("*" =? "/")%char) with false.
    change (("/" =? "/")%char && ("*" =? "*")%char) with true. cbv iota zeta.
    rewrite Hscan, nth_overflow by lia. reflexivity. }
  assert (Hlen : length (rest st) = 2 + length body) by now rewrite E.
  exists (jump (2 + length body) st).
  rewrite skipComments_len, Hn. split; [reflexivity |].
  split; [apply source_jump |]. split.
  - rewrite rest_jump, <- Hlen. apply skipn_all.
  - rewrite pos_jump by lia. rewrite length_rest in Hlen.
    destruct (rest_cons_pos st (c := "/"%char) (r := "*"%char :: body) E)
      as (Hlt & _). lia.
Qed.

Lemma skipComments_unterminated_witness :
  exists st',
    skipComments (mk (s "x /* y") 2 1 3) = Ok (tt, st') /\
    rest st' = [] /\ pos st' = 6.
Proof.
  destruct (@skipComments_unterminated (mk (s "x /* y") 2 1 3) (s " y")
              eq_refl eq_refl)
    as (st' & Hrun & _ & Hrest & Hpos).
  - cbv. intuition discriminate.
  - exists st'. repeat split; assumption.
Defined.

(** ** Inputs without a token *)

Lemma comment_len_line_open (text : list ascii) :
  Forall (fun c => c <> NL /\ c <> NUL) text ->
  comment_len (s "//" ++ text) = length (s "//" ++ text).
Proof.
  intros Htext. unfold comment_len.
  cbn [hd nth app s list_ascii_of_string].
  change (("/" =? "/")%char && ("/" =? "/")%char) with true. cbv iota.
  change ("/"%char :: "/"%char :: text) with (s "//" ++ text).
  rewrite <- (app_nil_r (s "//" ++ text)) at 1.
  apply (scan_len_stop (fun c => negb (c =? NL)%char && negb (c =? NUL)%char)
           in_line_comment (fun c r => eq_refl)); [| now left].
  repeat constructor. eapply Forall_impl; [| exact Htext].
  intros a [Ha Hb]. apply Ascii.eqb_neq in Ha, Hb. now rewrite Ha, Hb.
Qed.

Lemma comment_len_block_open (body : list ascii) :
  has_close body = false ->
  ~ In NUL body ->
  comment_len (s "/*" ++ body) = length (s "/*" ++ body).
Proof.
  intros Hc Hz. unfold comment_len.
  cbn [hd nth app s list_ascii_of_string skipn].
  change (("/" =? "/")%char && ("*" =? "/")%char) with false.
  change (("/" =? "/")%char && ("*" =? "*")%char) with true. cbv iota zeta.
  assert (Hscan : scan_len in_block_comment body = length body).
  { rewrite <- (app_nil_r body) at 1.
    rewrite scan_len_block by (try assumption; cbn; discriminate).
    cbn. lia. }
  rewrite Hscan, nth_overflow by lia. reflexivity.
Qed.

Lemma tokenize_gap (st : Tokenizer.t) :
  let a := scan_len at_space (rest st) in
  let b := comment_len (rest (jump a st)) in
  rest (jump (a + b) st) = [] ->
  Tokenizer.tokenize st =
  Ok ([Token.Token END_OF_FILE [] (line (jump (a + b) st))
         (column (jump (a + b) st))],
      jump (a + b) st).
Proof.
  intros a b Hend. unfold Tokenizer.tokenize. repeat run_step.
  cbn [tokenize_loop]. repeat run_step.
  assert (Hcase : rest st = [] \/ exists c r, rest st = c :: r)
    by (destruct (rest st); eauto).
  destruct Hcase as [E | (c & r & E)].
  - assert (Ha : a = 0) by (unfold a; now rewrite E).
    assert (Hb : b = 0) by (unfold b; rewrite Ha; cbn [jump]; now rewrite E).
    rewrite E, Ha, Hb. reflexivity.
  - assert (Hin : match rest st with [] => false | _ :: _ => true end = true)
      by now rewrite E.
    rewrite Hin, skipWhitespace_run, skipComments_len, jump_add.
    fold a. fold b. repeat run_step. rewrite Hend. reflexivity.
Qed.

(** X6.  An input made of whitespace, followed by nothing, by a line
    comment that runs to the end of the input, or by a block comment that
    is not closed, gives the one token [END_OF_FILE], placed at the
    position behind the last character in the arithmetic of [int]. *)
Theorem tokenize_only_gap (src ws cm : list ascii) :
  src = ws ++ cm ->
  Forall (fun c => isspace c = true) ws ->
  cm = [] \/
  (exists text,
     cm = s "//" ++ text /\ Forall (fun c => c <> NL /\ c <> NUL) text) \/
  (exists body,
     cm = s "/*" ++ body /\ has_close body = false /\ ~ In NUL body) ->
  tokenize_source src =
  Ok [Token.Token END_OF_FILE []
        (fst (int_position_of src (length src)))
        (snd (int_position_of src (length src)))].
Proof.
  intros Hsrc Hws Hcm.
  set (st := Tokenizer.Tokenizer src).
  assert (Hrest : rest st = ws ++ cm) by (unfold st, rest; cbn; now rewrite Hsrc).
  assert (Ha : scan_len at_space (rest st) = length ws).
  { rewrite Hrest.
    apply (scan_len_stop isspace at_space (fun c r => eq_refl)); [exact Hws |].
    destruct Hcm as [-> | [(text & -> & _) | (body & -> & _)]];
      [now left | now right | now right]. }
  assert (Hr1 : rest (jump (length ws) st) = cm).
  { now rewrite rest_jump, Hrest, skipn_app, skipn_all, Nat.sub_diag. }
  assert (Hb : comment_len cm = length cm).
  { destruct Hcm as [-> | [(text & -> & Ht) | (body & -> & Hc & Hz)]].
    - reflexivity.
    - now apply comment_len_line_open.
    - now apply comment_len_block_open. }
  pose proof (tokenize_gap st) as Hrun. cbv zeta in Hrun.
  rewrite Ha, Hr1, Hb in Hrun.
  assert (Hend : rest (jump (length ws + length cm) st) = []).
  { rewrite rest_jump, Hrest, <- length_app. apply skipn_all. }
  specialize (Hrun Hend).
  assert (Hlen : length ws + length cm = length src)
    by (now rewrite Hsrc, length_app).
  rewrite Hlen in Hrun.
  unfold tokenize_source. fold st. rewrite Hrun.
  pose proof (cursor_ok_jump (length src) (cursor_ok_Tokenizer src))
    as [_ Hpos].
  fold st in Hpos. rewrite source_jump, pos_jump in Hpos
    by (rewrite Hrest, length_app; lia).
  cbn [source pos st Tokenizer.Tokenizer] in Hpos.
  rewrite Nat.add_0_l in Hpos. rewrite <- Hpos. reflexivity.
Qed.

Lemma tokenize_only_gap_witness :
  tokenize_source ([NL] ++ s "  /* open") =
  Ok [Token.Token END_OF_FILE [] 2 10].
Proof.
  apply (@tokenize_only_gap ([NL] ++ s "  /* open") ([NL] ++ s "  ")
           (s "/* open") eq_refl).
  - repeat constructor.
  - right. right. exists (s " open"). cbv. intuition discriminate.
Defined.

(** ** Numbers *)

Lemma digit_not_identifier_start (c : ascii) :
  isdigit c = true -> is_identifier_start c = false.
Proof.
  destruct c as [[] [] [] [] [] [] [] []]; cbv; congruence.
Qed.

(** X7.  At a digit the token pushed is the one [readNumber] returns, of
    kind [NUMBER], recorded at the digit.  Its text is the longest run of
    digits and dots at the cursor, however the dots are placed: it is what
    the buffer holds there, it starts with the digit, all its characters
    are digits or dots and the character after it is neither. *)
Theorem readNumber_maximal (st : Tokenizer.t) (c : ascii) (r : list ascii) :
  rest st = c :: r ->
  isdigit c = true ->
  exists value st',
    readNumber st =
    Ok (Token.Token NUMBER value (line st) (column st), st') /\
    dispatch st = readNumber st /\
    firstn (length value) (rest st) = value /\
    hd NUL value = c /\
    Forall (fun a => is_number_char a = true) value /\
    is_number_char (nth (length value) (rest st) NUL) = false /\
    rest st' = skipn (length value) (rest st) /\
    pos st' = pos st + length value.
Proof.
  intros E Hd.
  set (n := scan_len at_number_char (rest st)).
  exists (firstn n (rest st)), (jump (length (firstn n (rest st))) st).
  destruct (scan_len_head is_number_char at_number_char (fun c r => eq_refl)
              (rest st)) as [Hall Hstop]. fold n in Hall, Hstop.
  pose proof (scan_len_le at_number_char (rest st)) as Hle. fold n in Hle.
  assert (Hlen : length (firstn n (rest st)) = n)
    by (rewrite length_firstn; lia).
  split; [apply readNumber_run |]. split.
  { unfold dispatch. repeat run_step. rewrite E. cbn [nth].
    now rewrite (digit_not_identifier_start _ Hd), Hd. }
  rewrite Hlen. split; [reflexivity |]. split.
  { unfold n. rewrite E. cbn [scan_len].
    change (at_number_char (c :: r)) with (isdigit c || (c =? ".")%char).
    now rewrite Hd. }
  split; [exact Hall |]. split.
  { destruct Hstop as [H | H].
    - rewrite nth_overflow; [reflexivity |].
      apply (f_equal (@length ascii)) in H. rewrite length_skipn in H.
      simpl in H. lia.
    - rewrite <- (Nat.add_0_r n), <- nth_skipn, nth_0_hd. exact H. }
  split; [apply rest_jump | now apply pos_jump].
Qed.

Lemma readNumber_maximal_witness :
  exists st',
    readNumber (mk (s "v=1.2.3;") 2 1 3) =
    Ok (Token.Token NUMBER (s "1.2.3") 1 3, st') /\
    rest st' = s ";".
Proof.
  destruct (@readNumber_maximal (mk (s "v=1.2.3;") 2 1 3) "1"%char
              (s ".2.3;") eq_refl eq_refl)
    as (value & st' & Hrun & _ & _ & _ & _ & _ & Hrest & _).
  exists st'. vm_compute in Hrun. inversion Hrun. split; reflexivity.
Defined.

(** ** The input as gaps and lexemes *)

Lemma string_body_spec_le (l : list ascii) :
  snd (string_body_spec l) <= length l.
Proof.
  assert (H : forall n l, length l < n ->
            snd (string_body_spec l) <= length l).
  { clear l. induction n as [| n IH]; intros l Hn; [lia |].
    destruct l as [| c r]; cbn [string_body_spec length snd]; [lia |].
    destruct ((c =? DQUOTE)%char || (c =? NUL)%char); cbn [snd]; [lia |].
    destruct (c =? BACKSLASH)%char.
    - destruct r as [| d r']; cbn [snd length]; [lia |].
      destruct (d =? NUL)%char; cbn [snd]; [lia |].
      specialize (IH r'). cbn [length] in Hn. lia.
    - specialize (IH r). cbn [snd length] in *. lia. }
  apply (H (S (length l))). lia.
Qed.

Lemma string_body_spec_prefix (l t : list ascii) :
  t = [] \/
  (t = [DQUOTE] /\ nth (snd (string_body_spec l)) l NUL = DQUOTE) ->
  string_body_spec (firstn (snd (string_body_spec l)) l ++ t) =
  string_body_spec l.
Proof.
  assert (H : forall n l, length l < n ->
            t = [] \/
            (t = [DQUOTE] /\ nth (snd (string_body_spec l)) l NUL = DQUOTE) ->
            string_body_spec (firstn (snd (string_body_spec l)) l ++ t) =
            string_body_spec l).
  { clear l. induction n as [| n IH]; intros l Hn Ht; [lia |].
    destruct l as [| c r].
    - cbn in *. destruct Ht as [-> | [_ Hq]]; [reflexivity | discriminate].
    - cbn [string_body_spec] in *.
      destruct ((c =? DQUOTE)%char || (c =? NUL)%char) eqn:E1.
      + cbn [snd firstn app] in *.
        destruct Ht as [-> | [-> _]]; reflexivity.
      + destruct (c =? BACKSLASH)%char eqn:E2.
        * destruct r as [| d r'].
          -- cbn [snd firstn app nth] in *.
             destruct Ht as [-> | [_ Hq]]; [| discriminate].
             cbn [string_body_spec]. now rewrite E1, E2.
          -- destruct (d =? NUL)%char eqn:E3.
             ++ cbn [snd firstn app nth] in *.
                destruct Ht as [-> | [_ Hq]].
                ** cbn [string_body_spec]. now rewrite E1, E2.
                ** subst d. discriminate.
             ++ cbn [snd firstn app nth] in *.
                cbn [string_body_spec]. rewrite E1, E2, E3.
                rewrite (IH r'); [reflexivity | cbn [length] in Hn; lia |].
                exact Ht.
        * cbn [snd firstn app nth] in *.
          cbn [string_body_spec]. rewrite E1, E2.
          rewrite (IH r); [reflexivity | cbn [length] in Hn; lia |].
          exact Ht. }
  apply (H (S (length l))). lia.
Qed.

Lemma firstn_S_nth (l : list ascii) (n : nat) :
  n < length l -> firstn (S n) l = firstn n l ++ [nth n l NUL].
Proof.
  revert n. induction l as [| a b IH]; intros n Hlt; [simpl in Hlt; lia |].
  destruct n as [| n]; [reflexivity |]. cbn [firstn app nth].
  f_equal. apply IH. simpl in Hlt. lia.
Qed.

Lemma string_lexeme (body : list ascii) :
  let l := firstn (string_len (DQUOTE :: body)) (DQUOTE :: body) in
  string_len (DQUOTE :: body) <= length (DQUOTE :: body) /\
  string_len l = length l /\
  string_text l = string_text (DQUOTE :: body).
Proof.
  unfold string_len, string_text. cbn [tl].
  set (n := snd (string_body_spec body)).
  pose proof (string_body_spec_le body) as Hle. fold n in Hle.
  destruct (nth n body NUL =? DQUOTE)%char eqn:Eq.
  - apply Ascii.eqb_eq in Eq.
    assert (Hlt : n < length body).
    { destruct (Nat.lt_ge_cases n (length body)) as [H | H]; [exact H |].
      rewrite nth_overflow in Eq by exact H. discriminate. }
    assert (Hf : firstn (S n) body = firstn n body ++ [DQUOTE]).
    { rewrite <- Eq. now apply firstn_S_nth. }
    change (firstn (S (S n)) (DQUOTE :: body))
      with (DQUOTE :: firstn (S n) body).
    cbn [tl]. rewrite Hf.
    pose proof (@string_body_spec_prefix body [DQUOTE]
                  (or_intror (conj eq_refl Eq))) as Hp.
    fold n in Hp. rewrite Hp. fold n.
    rewrite app_nth2, length_firstn, Nat.min_l, Nat.sub_diag
      by (rewrite ?length_firstn; lia).
    cbn [nth]. change (DQUOTE =? DQUOTE)%char with true. cbv iota.
    cbn [length]. rewrite length_app, length_firstn. cbn [length].
    split; [lia |]. split; [lia | reflexivity].
  - change (firstn (S n) (DQUOTE :: body)) with (DQUOTE :: firstn n body).
    cbn [tl].
    pose proof (@string_body_spec_prefix body [] (or_introl eq_refl)) as Hp.
    fold n in Hp. rewrite app_nil_r in Hp. rewrite Hp. fold n.
    rewrite (nth_overflow (firstn n body)) by (rewrite length_firstn; lia).
    change (NUL =? DQUOTE)%char with false. cbv iota.
    cbn [length]. rewrite length_firstn.
    split; [lia |]. split; [lia | reflexivity].
Qed.

Lemma scan_len_firstn (P : ascii -> bool) (cond : list ascii -> bool) :
  (forall c r, cond (c :: r) = P c) ->
  forall l, scan_len cond (firstn (scan_len cond l) l) = scan_len cond l.
Proof.
  intros Hc. induction l as [| c r IH]; [reflexivity |].
  cbn [scan_len]. rewrite Hc. destruct (P c) eqn:E; [| reflexivity].
  cbn [firstn scan_len]. now rewrite Hc, E, IH.
Qed.

Lemma block_stop (r : list ascii) :
  nth (scan_len in_block_comment r) r NUL = NUL \/
  (nth (scan_len in_block_comment r) r NUL = "*"%char /\
   nth (S (scan_len in_block_comment r)) r NUL = "/"%char).
Proof.
  induction r as [| a r IH]; [now left |].
  cbn [scan_len]. destruct (in_block_comment (a :: r)) eqn:E; [exact IH |].
  unfold in_block_comment in E. cbn [hd nth] in *.
  destruct (Ascii.eqb_spec a NUL) as [-> | Hz]; [now left |].
  rewrite andb_true_r in E. apply negb_false_iff, andb_prop in E.
  destruct E as [E1 E2]. apply Ascii.eqb_eq in E1, E2. right. now split.
Qed.

Lemma block_prefix (r : list ascii) (k : nat) :
  (k = scan_len in_block_comment r /\
   nth (scan_len in_block_comment r) r NUL = NUL) \/
  (k = scan_len in_block_comment r + 2 /\
   nth (scan_len in_block_comment r) r NUL <> NUL) ->
  scan_len in_block_comment (firstn k r) = scan_len in_block_comment r.
Proof.
  revert k. induction r as [| a r IH]; intros k Hk.
  - now rewrite firstn_nil.
  - cbn [scan_len] in *. destruct (in_block_comment (a :: r)) eqn:E.
    + assert (Hk' : exists k', k = S k' /\
                ((k' = scan_len in_block_comment r /\
                  nth (scan_len in_block_comment r) r NUL = NUL) \/
                 (k' = scan_len in_block_comment r + 2 /\
                  nth (scan_len in_block_comment r) r NUL <> NUL))).
      { destruct Hk as [[-> H] | [-> H]]; cbn [nth] in H;
          eexists; (split; [reflexivity |]); [left | right]; now split. }
      destruct Hk' as (k' & -> & Hk').
      cbn [firstn scan_len].
      assert (E' : in_block_comment (a :: firstn k' r) = true).
      { unfold in_block_comment in *. cbn [hd nth] in *.
        apply andb_prop in E. destruct E as [E1 E2]. rewrite E2.
        rewrite andb_true_r.
        destruct k' as [| k'], r as [| b r']; cbn [firstn nth] in *;
          try exact E1; now rewrite andb_false_r. }
      now rewrite E', (IH k' Hk').
    + cbn [nth] in Hk. destruct Hk as [[-> H] | [-> H]]; [reflexivity |].
      unfold in_block_comment in E. cbn [hd nth] in E.
      apply Ascii.eqb_neq in H. rewrite H, andb_true_r in E.
      apply negb_false_iff, andb_prop in E. destruct E as [E1 E2].
      apply Ascii.eqb_eq in E1, E2. subst a.
      destruct r as [| b r']; [discriminate |]. cbn [nth] in E2. subst b.
      reflexivity.
Qed.

Lemma comment_len_firstn (l : list ascii) :
  comment_len l <= length l /\
  comment_len (firstn (comment_len l) l) = comment_len l.
Proof.
  remember (comment_len l) as k eqn:Hk. unfold comment_len in Hk.
  destruct ((hd NUL l =? "/")%char && (nth 1 l NUL =? "/")%char) eqn:E1.
  { apply andb_prop in E1. destruct E1 as [Ea Eb].
    destruct l as [| a [| b r]]; cbn [hd nth] in Ea, Eb;
      try discriminate.
    apply Ascii.eqb_eq in Ea, Eb. subst a b.
    split; [subst k; apply scan_len_le |].
    pose proof (scan_len_firstn
                  (fun c => negb (c =? NL)%char && negb (c =? NUL)%char)
                  in_line_comment (fun c r => eq_refl)
                  ("/"%char :: "/"%char :: r)) as H.
    rewrite <- Hk in H.
    assert (Hf : firstn k ("/"%char :: "/"%char :: r)
                 = "/"%char :: "/"%char :: firstn (k - 2) r).
    { subst k. cbn [scan_len].
      change (in_line_comment ("/"%char :: "/"%char :: r)) with true.
      change (in_line_comment ("/"%char :: r)) with true. cbv iota.
      cbn [firstn Nat.sub]. now rewrite Nat.sub_0_r. }
    rewrite Hf in *. unfold comment_len. cbn [hd nth].
    change (("/" =? "/")%char && ("/" =? "/")%char) with true. cbv iota.
    exact H. }
  destruct ((hd NUL l =? "/")%char && (nth 1 l NUL =? "*")%char) eqn:E2.
  { apply andb_prop in E2. destruct E2 as [Ea Eb].
    destruct l as [| a [| b r]]; cbn [hd nth] in Ea, Eb;
      try discriminate.
    apply Ascii.eqb_eq in Ea, Eb. subst a b. cbn [skipn] in Hk.
    cbv zeta in Hk.
    set (n := scan_len in_block_comment r) in *.
    pose proof (scan_len_le in_block_comment r) as Hle. fold n in Hle.
    pose proof (block_stop r) as Hstop. fold n in Hstop.
    destruct (nth n r NUL =? NUL)%char eqn:Ez.
    - apply Ascii.eqb_eq in Ez. subst k. split; [cbn [length]; lia |].
      change (firstn (2 + n) ("/"%char :: "*"%char :: r))
        with ("/"%char :: "*"%char :: firstn n r).
      unfold comment_len. cbn [hd nth skipn].
      change (("/" =? "/")%char && ("*" =? "/")%char) with false.
      change (("/" =? "/")%char && ("*" =? "*")%char) with true.
      cbv iota zeta.
      rewrite (@block_prefix r n (or_introl (conj eq_refl Ez))). fold n.
      rewrite nth_overflow by (rewrite length_firstn; lia). reflexivity.
    - apply Ascii.eqb_neq in Ez. subst k.
      destruct Hstop as [H | [Hs Hq]]; [contradiction |].
      assert (Hlt : S n < length r).
      { destruct (Nat.lt_ge_cases (S n) (length r)) as [H | H]; [exact H |].
        rewrite nth_overflow in Hq by exact H. discriminate. }
      split; [cbn [length]; lia |].
      replace (2 + n + 2) with (S (S (n + 2))) by lia.
      change (firstn (S (S (n + 2))) ("/"%char :: "*"%char :: r))
        with ("/"%char :: "*"%char :: firstn (n + 2) r).
      unfold comment_len. cbn [hd nth skipn].
      change (("/" =? "/")%char && ("*" =? "/")%char) with false.
      change (("/" =? "/")%char && ("*" =? "*")%char) with true.
      cbv iota zeta.
      rewrite (@block_prefix r (n + 2) (or_intror (conj eq_refl Ez))).
      fold n.
      assert (Hn : nth n (firstn (n + 2) r) NUL = nth n r NUL).
      { rewrite <- (firstn_skipn (n + 2) r) at 2.
        rewrite app_nth1; [reflexivity |]. rewrite length_firstn. lia. }
      rewrite Hn. apply Ascii.eqb_neq in Ez. rewrite Ez. lia. }
  subst k. split; [lia | reflexivity].
Qed.

Lemma scan_lexeme (P : ascii -> bool) (cond : list ascii -> bool)
  (c : ascii) (r : list ascii) :
  (forall a l, cond (a :: l) = P a) ->
  P c = true ->
  let v := firstn (scan_len cond (c :: r)) (c :: r) in
  v <> [] /\ hd NUL v = c /\ 1 <= length v <= length (c :: r) /\
  firstn (length v) (c :: r) = v /\
  Forall (fun a => P a = true) v.
Proof.
  intros Hc HP v.
  destruct (scan_len_head P cond Hc (c :: r)) as [Hall _].
  pose proof (scan_len_le cond (c :: r)) as Hle.
  assert (Hlen : length v = scan_len cond (c :: r))
    by (unfold v; rewrite length_firstn; lia).
  assert (Hv : v = c :: firstn (scan_len cond r) r)
    by (unfold v; cbn [scan_len]; now rewrite Hc, HP).
  split; [now rewrite Hv |]. split; [now rewrite Hv |].
  split; [rewrite Hlen; split; [| exact Hle]; cbn [scan_len];
          rewrite Hc, HP; lia |].
  split; [now rewrite Hlen | exact Hall].
Qed.

Lemma dispatch_lexeme (st : Tokenizer.t) (c : ascii) (r : list ascii) :
  rest st = c :: r ->
  exists tok n,
    dispatch st = Ok (tok, jump n st) /\
    1 <= n <= length (rest st) /\
    token_of_lexeme (firstn n (rest st)) tok.
Proof.
  intros E. unfold dispatch, token_of_lexeme. repeat run_step.
  rewrite E. cbn [nth].
  destruct (is_identifier_start c) eqn:Hid.
  { rewrite readIdentifierOrKeyword_run, E.
    assert (HP : is_identifier_char c = true).
    { unfold is_identifier_char, isalnum. unfold is_identifier_start in Hid.
      destruct (isalpha c); [reflexivity |]. cbn [orb] in *.
      now rewrite Hid, orb_true_r. }
    destruct (scan_lexeme is_identifier_char at_identifier_char c r
                (fun a l => eq_refl) HP) as (Hne & Hhd & Hlen & Hpre & Hall).
    set (v := firstn (scan_len at_identifier_char (c :: r)) (c :: r)) in *.
    do 2 eexists. split; [reflexivity |]. split; [exact Hlen |].
    rewrite Hpre. split; [exact Hne |]. cbn [Token.type Token.value].
    destruct (keywords_count v) eqn:Hk; rewrite Hhd;
      (split; [reflexivity |]); (split; [exact Hid |]);
      (split; [exact Hall |]).
    - now apply keywords_count_In.
    - intros Hin. apply keywords_count_In in Hin. congruence. }
  destruct (isdigit c) eqn:Hdig.
  { rewrite readNumber_run, E.
    assert (HP : is_number_char c = true)
      by (unfold is_number_char; now rewrite Hdig).
    destruct (scan_lexeme is_number_char at_number_char c r
                (fun a l => eq_refl) HP) as (Hne & Hhd & Hlen & Hpre & Hall).
    set (v := firstn (scan_len at_number_char (c :: r)) (c :: r)) in *.
    do 2 eexists. split; [reflexivity |]. split; [exact Hlen |].
    rewrite Hpre. split; [exact Hne |]. cbn [Token.type Token.value].
    rewrite Hhd. now repeat split. }
  destruct (c =? DQUOTE)%char eqn:Hq.
  { rewrite readString_run, E. apply Ascii.eqb_eq in Hq. subst c.
    destruct (string_lexeme r) as (Hle & Hlen & Htext). cbv zeta in *.
    do 2 eexists. split; [reflexivity |]. split.
    { split; [| exact Hle]. unfold string_len.
      destruct (_ =? DQUOTE)%char; lia. }
    cbn [Token.type Token.value]. split.
    { unfold string_len. destruct (_ =? DQUOTE)%char; discriminate. }
    split; [| split; [exact Hlen | now rewrite Htext]].
    unfold string_len. now destruct (_ =? DQUOTE)%char. }
  destruct (is_punctuation c) eqn:Hp.
  { repeat run_step. rewrite E. cbn [hd].
    exists (Token.Token PUNCTUATION [c] (line st) (column st)), 1.
    split; [reflexivity |]. split; [cbn [length]; lia |].
    cbn [firstn Token.type Token.value hd]. now repeat split. }
  destruct (is_operator_start c) eqn:Ho.
  { rewrite readOperator_run, E. cbn [hd].
    destruct (operator_text_prefix c r) as [Hne Hpre].
    set (v := operator_text c (nth 1 (c :: r) NUL)) in *.
    assert (Hlen : 1 <= length v <= length (c :: r)).
    { split; [destruct v; [contradiction | cbn [length]; lia] |].
      rewrite <- Hpre at 1. rewrite length_firstn. lia. }
    assert (Hhd : hd NUL v = c)
      by (unfold v, operator_text; now destruct (is_two_char_operator _ _)).
    do 2 eexists. split; [reflexivity |]. split; [exact Hlen |].
    rewrite Hpre. split; [exact Hne |]. cbn [Token.type Token.value].
    rewrite Hhd. split; [reflexivity |]. split; [exact Ho |].
    unfold v, operator_text.
    destruct (is_two_char_operator c _) eqn:Ht; [right | now left].
    now apply is_two_char_operator_In. }
  repeat run_step. rewrite E. cbn [hd].
  exists (Token.Token UNKNOWN [c] (line st) (column st)), 1.
  split; [reflexivity |]. split; [cbn [length]; lia |].
  cbn [firstn Token.type Token.value hd].
  split; [discriminate |]. repeat split; auto.
  intros ->. discriminate.
Qed.

Lemma is_gap_nil : is_gap [].
Proof. exists [], []. now repeat split. Qed.

Lemma is_gap_skipped (l : list ascii) :
  let a := scan_len at_space l in
  let b := comment_len (skipn a l) in
  is_gap (firstn (a + b) l) /\ a + b <= length l.
Proof.
  intros a b.
  destruct (scan_len_head isspace at_space (fun c r => eq_refl) l)
    as [Hws _]. fold a in Hws.
  pose proof (scan_len_le at_space l) as Ha. fold a in Ha.
  destruct (comment_len_firstn (skipn a l)) as [Hb Hcm]. fold b in Hb, Hcm.
  rewrite length_skipn in Hb. split; [| lia].
  exists (firstn a l), (firstn b (skipn a l)).
  split; [| split; [exact Hws |]].
  - rewrite <- (firstn_skipn a l) at 1.
    rewrite firstn_app, length_firstn, Nat.min_l by exact Ha.
    replace (a + b - a) with b by lia.
    rewrite firstn_firstn, Nat.min_r by lia. reflexivity.
  - rewrite Hcm, length_firstn, length_skipn. lia.
Qed.

Lemma tokenize_loop_pieces (fuel : nat) (tokens : list Token.t)
  (st : Tokenizer.t) :
  length (rest st) < fuel ->
  exists toks pieces g st',
    tokenize_loop fuel tokens st = Ok (tokens ++ toks, st') /\
    rest st = concat (map (fun p => fst p ++ snd p) pieces) ++ g /\
    Forall2 (fun p tok => is_gap (fst p) /\ token_of_lexeme (snd p) tok)
      pieces toks /\
    is_gap g.
Proof.
  revert tokens st.
  induction fuel as [| fuel IH]; intros tokens st Hf; [lia |].
  simpl tokenize_loop. repeat run_step.
  assert (Hcase : rest st = [] \/ exists c r, rest st = c :: r)
    by (destruct (rest st); eauto).
  destruct Hcase as [E | (c & r & E)].
  { rewrite E. exists [], [], [], st. rewrite app_nil_r.
    split; [reflexivity |]. split; [reflexivity |].
    split; [constructor | apply is_gap_nil]. }
  assert (Hin : match rest st with [] => false | _ :: _ => true end = true)
    by now rewrite E.
  rewrite Hin, skipWhitespace_run, skipComments_len, jump_add, rest_jump.
  destruct (is_gap_skipped (rest st)) as [Hgap Hab].
  set (a := scan_len at_space (rest st)) in *.
  set (b := comment_len (skipn a (rest st))) in *.
  repeat run_step. rewrite rest_jump.
  destruct (skipn (a + b) (rest st)) as [| c2 r2] eqn:E2.
  { exists [], [], (rest st), (jump (a + b) st). rewrite app_nil_r.
    split; [reflexivity |]. split; [reflexivity |].
    split; [constructor |].
    rewrite <- (firstn_skipn (a + b) (rest st)), E2, app_nil_r.
    exact Hgap. }
  assert (Er2 : rest (jump (a + b) st) = c2 :: r2) by now rewrite rest_jump.
  destruct (dispatch_lexeme _ Er2) as (tok & n & Hd & Hn & Hlex).
  rewrite Hd, jump_add. rewrite Er2 in Hn, Hlex.
  destruct (IH (tokens ++ [tok]) (jump (a + b + n) st)) as
    (toks & pieces & g & st' & Hrun & Hrest & Hall & Hg).
  { rewrite length_rest_jump.
    assert (length (c2 :: r2) = length (rest st) - (a + b))
      by (rewrite <- E2; apply length_skipn).
    lia. }
  exists (tok :: toks),
    ((firstn (a + b) (rest st), firstn n (c2 :: r2)) :: pieces), g, st'.
  rewrite Hrun, <- app_assoc. split; [reflexivity |]. split.
  - cbn [map concat fst snd]. rewrite <- !app_assoc, <- Hrest.
    rewrite rest_jump.
    replace (a + b + n) with (n + (a + b)) by lia.
    rewrite <- skipn_skipn, E2, firstn_skipn.
    rewrite <- E2. now rewrite firstn_skipn.
  - split; [| exact Hg]. constructor; [| exact Hall]. now split.
Qed.

(** X8.  For every input, the scan splits the input without a rest: the
    input is the concatenation, token by token, of a gap and the lexeme of
    the token, followed by a last gap.  A gap is whitespace followed by
    nothing or by one comment; the lexeme of a token other than a string
    literal is the text of the token, the kind of each token follows from
    the first character of its lexeme, and the text of a string literal is
    its lexeme without the quotes and with the backslashes dropped. *)
Theorem tokenize_covers_input (src : list ascii) :
  exists toks pieces g l c,
    tokenize_source src = Ok (toks ++ [Token.Token END_OF_FILE [] l c]) /\
    src = concat (map (fun p => fst p ++ snd p) pieces) ++ g /\
    Forall2 (fun p tok => is_gap (fst p) /\ token_of_lexeme (snd p) tok)
      pieces toks /\
    is_gap g.
Proof.
  set (st := Tokenizer.Tokenizer src).
  destruct (@tokenize_loop_pieces (S (length src)) [] st) as
    (toks & pieces & g & st' & Hrun & Hrest & Hall & Hg).
  { unfold st, rest. cbn [pos source Tokenizer.Tokenizer skipn]. lia. }
  exists toks, pieces, g, (line st'), (column st').
  split; [| split; [exact Hrest | now split]].
  unfold tokenize_source, Tokenizer.tokenize. fold st. repeat run_step.
  cbn [source st Tokenizer.Tokenizer]. fold st. now rewrite Hrun.
Qed.

(** ** Bounds and order *)

Lemma string_text_le (l : list ascii) :
  length (fst (string_body_spec l)) <= snd (string_body_spec l).
Proof.
  assert (H : forall n l, length l < n ->
            length (fst (string_body_spec l)) <= snd (string_body_spec l)).
  { clear l. induction n as [| n IH]; intros l Hn; [lia |].
    destruct l as [| c r]; cbn [string_body_spec length fst snd]; [lia |].
    destruct ((c =? DQUOTE)%char || (c =? NUL)%char);
      cbn [fst snd length]; [lia |].
    destruct (c =? BACKSLASH)%char.
    - destruct r as [| d r']; cbn [fst snd length]; [lia |].
      destruct (d =? NUL)%char; cbn [fst snd length]; [lia |].
      specialize (IH r'). cbn [length] in Hn. lia.
    - specialize (IH r). cbn [fst snd length] in *. lia. }
  apply (H (S (length l))). lia.
Qed.

Lemma token_of_lexeme_length (l : list ascii) (tok : Token.t) :
  token_of_lexeme l tok ->
  1 <= length l /\ length (Token.value tok) <= length l.
Proof.
  intros [Hne H]. split; [destruct l; [contradiction | cbn; lia] |].
  destruct (Token.type tok); try (destruct H as [-> _]; lia);
    [| contradiction].
  destruct H as (_ & Hlen & ->). rewrite <- Hlen.
  unfold string_text, string_len.
  pose proof (string_text_le (tl l)).
  destruct (_ =? DQUOTE)%char; lia.
Qed.

(** X9.  The result is no larger than the input: it holds at most one
    token for each character of the input, and the closing
    [END_OF_FILE]; and the texts of its tokens together are no longer than
    the input. *)
Theorem tokenize_size (src : list ascii) :
  exists toks,
    tokenize_source src = Ok toks /\
    length toks <= S (length src) /\
    length (concat (map Token.value toks)) <= length src.
Proof.
  destruct (tokenize_covers_input src) as
    (toks & pieces & g & l & c & Hrun & Hsrc & Hall & _).
  exists (toks ++ [Token.Token END_OF_FILE [] l c]).
  split; [exact Hrun |].
  assert (H : length toks <= length (concat (map (fun p => fst p ++ snd p)
                                               pieces)) /\
              length (concat (map Token.value toks))
              <= length (concat (map (fun p => fst p ++ snd p) pieces))).
  { clear -Hall. induction Hall as [| p tok pieces toks [_ Hp] _ IH].
    - cbn. lia.
    - destruct (token_of_lexeme_length Hp) as [H1 H2].
      cbn [map concat length]. rewrite !length_app. lia. }
  rewrite Hsrc, map_app, concat_app, !length_app. cbn. lia.
Qed.

Lemma position_lt_step (p : Z * Z) (c : ascii) :
  position_lt p (step_position p c).
Proof.
  unfold position_lt, step_position.
  destruct (c =? NL)%char; cbn [fst snd]; lia.
Qed.

Lemma position_lt_trans (p q r : Z * Z) :
  position_lt p q -> position_lt q r -> position_lt p r.
Proof. unfold position_lt. lia. Qed.

Lemma position_of_lt (src : list ascii) (p q : nat) :
  p < q -> q <= length src ->
  position_lt (position_of src p) (position_of src q).
Proof.
  intros Hpq Hq. induction q as [| q IH]; [lia |].
  destruct (nth_error src q) as [c |] eqn:E;
    [| apply nth_error_None in E; lia].
  rewrite (position_of_S _ _ E).
  destruct (Nat.eq_dec p q) as [-> | Hne]; [apply position_lt_step |].
  eapply position_lt_trans; [apply IH; lia | apply position_lt_step].
Qed.

Lemma tokens_in_order (src : list ascii) (offs : list nat)
  (toks : list Token.t) :
  (Z.of_nat (length src) < 2147483647)%Z ->
  Forall2 (token_at src) offs toks ->
  StronglySorted lt offs ->
  StronglySorted (fun a b => position_lt (token_position a)
                               (token_position b)) toks /\
  Forall (fun a => position_lt (token_position a)
                     (position_of src (length src))) toks.
Proof.
  intros Hsmall Hall. induction Hall as [| p tok offs toks Hp Hrest IH];
    intros Hsort; [split; constructor |].
  inversion Hsort as [| ? ? Hs Hlt]; subst.
  destruct (IH Hs) as [IH1 IH2].
  destruct Hp as (Hp & Hpos & _). unfold token_position at 1 3.
  rewrite int_position_small in Hpos by lia.
  split; constructor; auto.
  - clear -Hrest Hlt Hpos Hsmall.
    induction Hrest as [| q t offs toks Hq _ IH]; constructor.
    + inversion Hlt; subst. destruct Hq as (Hq & Hqpos & _).
      rewrite int_position_small in Hqpos by lia.
      unfold token_position. rewrite Hpos, Hqpos.
      apply position_of_lt; lia.
    + apply IH. now inversion Hlt.
  - rewrite Hpos. apply position_of_lt; lia.
Qed.

(** X10.  For an input of fewer than [2^31 - 1] characters, the positions
    recorded in the tokens increase strictly in reading order along the
    sequence, the closing [END_OF_FILE] included: each token is on a later
    line than the one before it, or on the same line at a later column. *)
Theorem tokenize_positions_increase (src : list ascii) :
  (Z.of_nat (length src) < 2147483647)%Z ->
  exists toks,
    tokenize_source src = Ok toks /\
    StronglySorted (fun a b => position_lt (token_position a)
                                 (token_position b)) toks.
Proof.
  intros Hsmall.
  destruct (tokenize_source_run src) as
    (toks & offs & l & c & Hrun & Hpos & Hall & Hsort).
  rewrite int_position_small in Hpos by lia.
  exists (toks ++ [Token.Token END_OF_FILE [] l c]).
  split; [exact Hrun |].
  destruct (tokens_in_order Hsmall Hall Hsort) as [H1 H2].
  clear -H1 H2 Hpos. induction H1 as [| a toks Hs IH Ha]; cbn [app].
  - repeat constructor.
  - inversion H2; subst. constructor; [now apply IH |].
    apply Forall_app. split; [exact Ha |]. constructor; [| constructor].
    unfold token_position at 2. cbn [Token.line Token.column].
    now rewrite Hpos.
Qed.

Lemma tokenize_positions_increase_witness :
  exists toks,
    tokenize_source (s "a" ++ [NL] ++ s "b c") = Ok toks /\
    StronglySorted (fun a b => position_lt (token_position a)
                                 (token_position b)) toks.
Proof.
  apply (@tokenize_positions_increase (s "a" ++ [NL] ++ s "b c")).
  vm_compute. reflexivity.
Defined.

Lemma fold_step_line (cs : list ascii) (p : Z * Z) :
  fst (fold_left step_position cs p) =
  (fst p + Z.of_nat (count_occ ascii_dec cs NL))%Z.
Proof.
  revert p. induction cs as [| c cs IH]; intros p; cbn [fold_left count_occ].
  - lia.
  - rewrite IH. unfold step_position.
    destruct (ascii_dec c NL) as [-> | Hne].
    + change (NL =? NL)%char with true. cbn [fst length]. lia.
    + apply Ascii.eqb_neq in Hne. rewrite Hne. cbn [fst]. lia.
Qed.

(** X11.  The line of the closing [END_OF_FILE] token counts the lines of
    the input: it is one more than the number of newline characters in
    the input, wherever they stand (in a comment, in a string literal,
    between tokens), as an [int]: wrapped when that number does not fit. *)
Theorem end_of_file_line (src : list ascii) :
  exists front c,
    tokenize_source src =
    Ok (front ++
        [Token.Token END_OF_FILE []
           (int_wrap (1 + Z.of_nat (count_occ ascii_dec src NL))) c]).
Proof.
  destruct (tokenize_source_run src) as
    (toks & offs & l & c & Hrun & Hpos & _).
  exists toks, c. rewrite Hrun. repeat f_equal.
  apply (f_equal fst) in Hpos. cbn [fst] in Hpos. rewrite Hpos.
  rewrite int_position_of_wrap. cbn [fst].
  unfold position_of. now rewrite firstn_all, fold_step_line.
Qed.

(** X12.  A scanner is used up by its scan: [tokenize] called again on the
    state the first call left returns the closing [END_OF_FILE] token
    alone, the same one as before, and leaves the state as it is. *)
Theorem tokenize_again (src : list ascii) :
  exists front eof final,
    Tokenizer.tokenize (Tokenizer.Tokenizer src) =
    Ok (front ++ [eof], final) /\
    Tokenizer.tokenize final = Ok ([eof], final).
Proof.
  destruct (tokenize_run (cursor_ok_Tokenizer src)) as
    (toks & offs & st' & Hrun & Hsrc & Hok' & Hpos & _).
  exists toks, (Token.Token END_OF_FILE [] (line st') (column st')), st'.
  split; [exact Hrun |].
  assert (E : rest st' = []).
  { unfold rest. apply skipn_all2. rewrite Hpos, Hsrc. cbn. lia. }
  pose proof (tokenize_gap st') as H. cbv zeta in H.
  rewrite E in H. cbn [scan_len jump Nat.add] in H. rewrite E in H.
  change (comment_len []) with 0 in H. cbn [jump] in H.
  apply H. exact E.
Qed.

(** X13.  For an input of fewer than [2^31 - 1] characters, the line and
    the column recorded in a token, the closing [END_OF_FILE] included,
    lie between 1 and one more than the length of the input: no [++] on
    them has overflowed. *)
Theorem token_positions_bounded (src : list ascii) :
  (Z.of_nat (length src) < 2147483647)%Z ->
  exists toks,
    tokenize_source src = Ok toks /\
    Forall
      (fun tok =>
         (1 <= Token.line tok <= 1 + Z.of_nat (length src))%Z /\
         (1 <= Token.column tok <= 1 + Z.of_nat (length src))%Z)
      toks.
Proof.
  intros Hsmall.
  destruct (tokenize_source_run src) as
    (toks & offs & l & c & Hrun & Hpos & Hall & _).
  rewrite int_position_small in Hpos by lia.
  exists (toks ++ [Token.Token END_OF_FILE [] l c]).
  split; [exact Hrun |]. apply Forall_app. split.
  - clear -Hall Hsmall. induction Hall as [| p tok offs toks Hp _ IH];
      constructor; [| exact IH].
    destruct Hp as (Hp & Hpos & _).
    rewrite int_position_small in Hpos by lia.
    pose proof (position_of_bound src p) as [H1 H2].
    rewrite <- Hpos in H1, H2. cbn [fst snd] in H1, H2. lia.
  - constructor; [| constructor]. cbn [Token.line Token.column].
    pose proof (position_of_bound src (length src)) as [H1 H2].
    rewrite <- Hpos in H1, H2. cbn [fst snd] in H1, H2. lia.
Qed.

Lemma token_positions_bounded_witness :
  exists toks,
    tokenize_source (s "x = 1;" ++ [NL]) = Ok toks /\
    Forall
      (fun tok =>
         (1 <= Token.line tok <= 8)%Z /\ (1 <= Token.column tok <= 8)%Z)
      toks.
Proof.
  apply (@token_positions_bounded (s "x = 1;" ++ [NL])).
  vm_compute. reflexivity.
Defined.

(** ** The printed listing *)

Example print_token_keyword :
  print_token (Token.Token KEYWORD (s "int") 1 1) =
  s "[KEYWORD] 'int' (line 1, col 1)" ++ [NL].
Proof. reflexivity. Qed.

Example printTokens_two :
  printTokens [Token.Token NUMBER (s "42") 3 10; Token.Token END_OF_FILE [] 4 1]
    (s ">") =
  s ">[NUMBER] '42' (line 3, col 10)" ++ [NL] ++
  s "[EOF] '' (line 4, col 1)" ++ [NL].
Proof. reflexivity. Qed.

Lemma int_text_inj (a b : Z) : int_text a = int_text b -> a = b.
Proof.
  unfold int_text. intros H.
  apply (f_equal string_of_list_ascii) in H.
  rewrite !string_of_list_ascii_of_string in H.
  apply (f_equal DecimalString.NilEmpty.int_of_string) in H.
  rewrite !DecimalString.NilEmpty.isi in H.
  apply DecimalZ.to_int_inj. congruence.
Qed.

Lemma uint_text_decimal (d : Decimal.uint) :
  Forall (fun c => is_decimal_char c = true)
    (list_ascii_of_string (DecimalString.NilEmpty.string_of_uint d)).
Proof.
  induction d; cbn [DecimalString.NilEmpty.string_of_uint
                      list_ascii_of_string]; constructor;
    solve [reflexivity | assumption].
Qed.

Lemma int_text_decimal (z : Z) :
  Forall (fun c => is_decimal_char c = true) (int_text z).
Proof.
  unfold int_text. destruct (Z.to_int z) as [d | d];
    cbn [DecimalString.NilEmpty.string_of_int list_ascii_of_string].
  - apply uint_text_decimal.
  - constructor; [reflexivity | apply uint_text_decimal].
Qed.

Lemma decimal_head (d1 d2 r1 r2 : list ascii) (x y : ascii) :
  Forall (fun c => is_decimal_char c = true) d1 ->
  Forall (fun c => is_decimal_char c = true) d2 ->
  is_decimal_char x = false -> is_decimal_char y = false ->
  d1 ++ x :: r1 = d2 ++ y :: r2 ->
  d1 = d2 /\ x :: r1 = y :: r2.
Proof.
  intros H1. revert d2. induction H1 as [| a d1 Ha _ IH];
    intros d2 H2 Hx Hy H; destruct H2 as [| b d2 Hb H2]; cbn [app] in H.
  - now split.
  - inversion H; subst. congruence.
  - inversion H; subst. congruence.
  - inversion H; subst. destruct (IH d2 H2 Hx Hy) as [-> Hr]; auto.
Qed.

Lemma decimal_tail (l1 l2 d1 d2 : list ascii) (x : ascii) :
  Forall (fun c => is_decimal_char c = true) d1 ->
  Forall (fun c => is_decimal_char c = true) d2 ->
  is_decimal_char x = false ->
  (l1 ++ [x]) ++ d1 = (l2 ++ [x]) ++ d2 ->
  l1 = l2 /\ d1 = d2.
Proof.
  intros H1 H2 Hx H. apply (f_equal (@rev ascii)) in H.
  rewrite !rev_app_distr in H. cbn [rev app] in H.
  apply decimal_head in H; auto using Forall_rev.
  destruct H as [Hd Hl]. inversion Hl as [Hl'].
  apply (f_equal (@rev ascii)) in Hd, Hl'.
  rewrite !rev_involutive in Hd, Hl'. now split.
Qed.

Lemma tokenTypeToString_inj (a b : TokenType) (r1 r2 : list ascii) :
  tokenTypeToString a ++ r1 = tokenTypeToString b ++ r2 -> a = b.
Proof.
  destruct a, b; cbn; intros H; try reflexivity; discriminate H.
Qed.

(** X14.  The line [printTokens] writes for a token determines the token:
    two tokens with the same printed line have the same kind, text, line
    and column. *)
Theorem print_token_inj (a b : Token.t) :
  print_token a = print_token b -> a = b.
Proof.
  destruct a as [ta va la ca], b as [tb vb lb cb]. unfold print_token.
  cbn [Token.type Token.value Token.line Token.column]. intros H.
  apply app_inv_head in H.
  assert (Ht : ta = tb) by (eapply tokenTypeToString_inj; exact H).
  subst tb. do 3 apply app_inv_head in H.
  change (s "' ") with (s "'" ++ [" "%char]) in H.
  change (s ", col ") with (s ", col" ++ [" "%char]) in H.
  change (s "(line ") with (s "(line" ++ [" "%char]) in H.
  rewrite !app_assoc in H. do 2 apply app_inv_tail in H.
  apply decimal_tail in H; auto using int_text_decimal.
  destruct H as [H Hc]. apply app_inv_tail in H.
  apply decimal_tail in H; auto using int_text_decimal.
  destruct H as [H Hl]. do 3 apply app_inv_tail in H.
  apply int_text_inj in Hc, Hl. now subst.
Qed.

Lemma print_token_inj_witness :
  Token.Token NUMBER (s "4" ++ s "2") (2 + 1) 10 =
  Token.Token NUMBER (s "42") 3 (5 * 2).
Proof.
  apply (@print_token_inj (Token.Token NUMBER (s "4" ++ s "2") (2 + 1) 10)
           (Token.Token NUMBER (s "42") 3 (5 * 2))).
  reflexivity.
Defined.

(** X15.  The listing as a whole does not determine the token sequence: a
    string literal may hold the text of a printed line, so two inputs with
    different token sequences can print the same listing.  Here the first
    input is one string literal, the second two. *)
Theorem printTokens_ambiguous :
  exists src1 src2 toks1 toks2,
    tokenize_source src1 = Ok toks1 /\
    tokenize_source src2 = Ok toks2 /\
    length toks1 = 2 /\ length toks2 = 3 /\
    printTokens toks1 [] = printTokens toks2 [].
Proof.
  exists (s "    " ++ [DQUOTE] ++ s "a' (line 1, col 1)" ++ [NL] ++
          s "[STRING] 'b" ++ [DQUOTE]),
         ([DQUOTE] ++ s "a" ++ [DQUOTE] ++ s " " ++ [DQUOTE] ++ s "b" ++
          [DQUOTE] ++ [NL] ++ s "            ").
  do 2 eexists. split; [vm_compute; reflexivity |].
  split; [vm_compute; reflexivity |]. repeat split.
Qed.

(** ** NUL characters *)

Lemma string_text_no_NUL (l : list ascii) :
  ~ In NUL (fst (string_body_spec l)).
Proof.
  assert (H : forall n l, length l < n ->
            ~ In NUL (fst (string_body_spec l))).
  { clear l. induction n as [| n IH]; intros l Hn; [lia |].
    destruct l as [| c r]; cbn [string_body_spec fst]; [tauto |].
    destruct ((c =? DQUOTE)%char || (c =? NUL)%char) eqn:E1;
      cbn [fst]; [tauto |].
    apply orb_false_iff in E1. destruct E1 as [_ Ez].
    apply Ascii.eqb_neq in Ez.
    destruct (c =? BACKSLASH)%char.
    - destruct r as [| d r']; cbn [fst]; [tauto |].
      destruct (d =? NUL)%char eqn:Ed; cbn [fst]; [tauto |].
      apply Ascii.eqb_neq in Ed. intros [H | H]; [congruence |].
      apply (IH r'); [cbn [length] in Hn; lia | exact H].
    - cbn [fst]. intros [H | H]; [congruence |].
      apply (IH r); [cbn [length] in Hn; lia | exact H]. }
  apply (H (S (length l))). lia.
Qed.

Lemma token_of_lexeme_NUL (l : list ascii) (tok : Token.t) :
  token_of_lexeme l tok ->
  In NUL (Token.value tok) ->
  Token.type tok = UNKNOWN /\ Token.value tok = [NUL].
Proof.
  intros [Hne H] Hin. destruct (Token.type tok).
  - destruct H as (Hv & _ & Hall & _). rewrite Hv in Hin.
    rewrite Forall_forall in Hall. specialize (Hall _ Hin).
    cbv in Hall. discriminate.
  - destruct H as (Hv & _ & Hall & _). rewrite Hv in Hin.
    rewrite Forall_forall in Hall. specialize (Hall _ Hin).
    cbv in Hall. discriminate.
  - destruct H as (Hv & _ & Hall). rewrite Hv in Hin.
    rewrite Forall_forall in Hall. specialize (Hall _ Hin).
    cbv in Hall. discriminate.
  - destruct H as (Hv & Hop & [Hl | Hl]); rewrite Hv in Hin.
    + rewrite Hl in Hin. destruct Hin as [Hz | []].
      rewrite Hz in Hop. cbv in Hop. discriminate.
    + cbv [two_char_operators map s list_ascii_of_string] in Hl.
      cbn [In] in Hl.
      repeat (destruct Hl as [Hl | Hl];
              [rewrite <- Hl in Hin; cbv in Hin; intuition discriminate |]).
      contradiction.
  - destruct H as (Hv & Hl & Hp). rewrite Hv, Hl in Hin.
    destruct Hin as [Hz | []]. rewrite Hz in Hp. cbv in Hp. discriminate.
  - destruct H as (_ & _ & Hv). rewrite Hv in Hin.
    now apply string_text_no_NUL in Hin.
  - contradiction.
  - destruct H as (Hv & Hl & _). rewrite Hv, Hl in *.
    destruct Hin as [Hz | []]. now rewrite Hz.
Qed.

(** X16.  A NUL character of the input never ends up inside a longer
    token: for every input, a token whose text holds a NUL character is of
    kind [UNKNOWN] and its text is that one character.  In particular the
    text of a string literal is free of NUL characters. *)
Theorem nul_only_unknown (src : list ascii) :
  exists toks,
    tokenize_source src = Ok toks /\
    Forall
      (fun tok =>
         In NUL (Token.value tok) ->
         Token.type tok = UNKNOWN /\ Token.value tok = [NUL])
      toks.
Proof.
  destruct (tokenize_covers_input src) as
    (toks & pieces & g & l & c & Hrun & _ & Hall & _).
  exists (toks ++ [Token.Token END_OF_FILE [] l c]).
  split; [exact Hrun |]. apply Forall_app. split.
  - clear -Hall. induction Hall as [| p tok pieces toks [_ Hp] _ IH];
      constructor; [| exact IH].
    exact (token_of_lexeme_NUL Hp).
  - constructor; [| constructor]. intros [].
Qed.

(** ** The position of every token *)


